(** * LinguaLink puzzle generator: [src/utils/puzzleGenerator.js]

    A shallow embedding of the module and the proofs of its specified
    properties.

    Modelling conventions.
    - A JavaScript string is the list of its UTF-16 code units, so that
      [length] is the [.length] of the source (the accented letters of the
      tables are single code units).
    - On stores, a JavaScript number is an exact rational ([Q]): the
      literals of the tables are their decimal values and [+], [*], [/],
      [<], [<=] are exact.  This serves the properties that rounding
      does not touch: which letters a call can return, the shape of a
      board, what a call writes and when it throws.  Which letter a
      given draw selects does depend on rounding; for it the sampler is
      given a second time as a function of the arithmetic, with IEEE 754
      binary64 (the primitive floats of Rocq, the doubles of the source)
      and exact rationals as two instances.
    - An object literal is the list of its own enumerable properties in
      iteration order.  No key of the module is an array index, so
      [for ... in] and [Object.keys] follow insertion order.  Properties
      inherited from [Object.prototype] are not modelled: a lookup finds
      own properties only, which is what the source does for every key
      other than the names of [Object.prototype] ([constructor],
      [toString], ...).
    - Every operation threads an explicit store.  The objects that map
      letters to numbers (the three frequency tables, and the [vowelFreq]
      object each vowel draw creates) live in a heap and are handled
      through their addresses, so that a write through one reference is
      seen through every alias.  The store also holds the bindings of
      [letterFrequencies] and [vowels], the [Math.seedrandom] property
      and the sequence of values that [Math.random()] returns.  Arrays
      that a call builds and returns or drops ([row], [board], the
      results of [Object.keys] and [filter]) are local values.
    - [throw] is an outcome of its own, so a call either returns a value
      or raises. *)

From Stdlib Require Import String Ascii.
From Stdlib Require Import QArith Qround ZArith List Bool Lia.
From Stdlib Require PrimFloat Uint63.
Import ListNotations.

Set Warnings "-inexact-float".

(* ================================================================== *)
(** * Strings, values and objects *)
(* ================================================================== *)

(** A string as its UTF-16 code units. *)
Definition jstring := list N.

(** An ASCII literal of the source. *)
Definition lit (s : string) : jstring :=
  map N_of_ascii (list_ascii_of_string s).

(** A one-character literal given by its code point (below U+10000). *)
Definition chr (codeUnit : N) : jstring := [codeUnit].

(** [a === b] on strings. *)
Fixpoint str_eqb (a b : jstring) : bool :=
  match a, b with
  | [], [] => true
  | x :: a', y :: b' => N.eqb x y && str_eqb a' b'
  | _, _ => false
  end.

(** What a cell or a variable holding a letter can be. *)
Inductive jsval : Type :=
  | Undefined
  | Str (s : jstring).

(** An object with values in [V]: own enumerable properties in
    iteration order. *)
Definition object (V : Type) := list (jstring * V).

(** [o[k]]; [None] is [undefined]. *)
Fixpoint getProp {V} (o : object V) (k : jstring) : option V :=
  match o with
  | [] => None
  | (k', v) :: rest => if str_eqb k' k then Some v else getProp rest k
  end.

(** [o[k] = v]: an existing property keeps its place, a new one goes last. *)
Fixpoint setProp {V} (o : object V) (k : jstring) (v : V) : object V :=
  match o with
  | [] => [(k, v)]
  | (k', v') :: rest =>
      if str_eqb k' k then (k', v) :: rest else (k', v') :: setProp rest k v
  end.

(** [Object.keys(o)], also the order of [for (k in o)]. *)
Definition keys {V} (o : object V) : list jstring := map fst o.

(** [a || b] where both operands are objects or [undefined]. *)
Definition orElse {A} (a b : option A) : option A :=
  match a with
  | Some x => Some x
  | None => b
  end.

(** Truthiness of a number-or-undefined: [undefined] and [0] are falsy. *)
Definition truthy (v : option Q) : bool :=
  match v with
  | Some q => negb (Qeq_bool q 0)
  | None => false
  end.

(** The number read from a property known to exist. *)
Definition num (v : option Q) : Q :=
  match v with
  | Some q => q
  | None => 0
  end.

(** [x < y] on numbers. *)
Definition Qlt_bool (x y : Q) : bool := negb (Qle_bool y x).

(** [Math.floor(random * len)] for an array length [len]. *)
Definition floorIndex (random : Q) (len : nat) : Z :=
  Qfloor (random * inject_Z (Z.of_nat len)).

(** [arr[i]] for an integer [i]; out of range is [undefined]. *)
Definition at_index {A} (arr : list A) (i : Z) : option A :=
  if (i <? 0)%Z then None else nth_error arr (Z.to_nat i).

(** A string element of an array as a value. *)
Definition elem (x : option jstring) : jsval :=
  match x with
  | Some s => Str s
  | None => Undefined
  end.

(** The property key a value is converted to in [o[v]]. *)
Definition propertyKey (v : jsval) : jstring :=
  match v with
  | Str s => s
  | Undefined => lit "undefined"
  end.

(* ================================================================== *)
(** * The static tables *)
(* ================================================================== *)

Local Open Scope Q_scope.

(** Accented letters of the tables, by code point. *)
Definition N_tilde : jstring := chr 209.     (* U+00D1 *)
Definition E_acute : jstring := chr 201.     (* U+00C9 *)
Definition E_grave : jstring := chr 200.     (* U+00C8 *)
Definition E_circ : jstring := chr 202.      (* U+00CA *)
Definition C_cedilla : jstring := chr 199.   (* U+00C7 *)

Definition letterFrequencies : object (object Q) :=
  [ (lit "en",
      [ (lit "A", 8.2); (lit "B", 1.5); (lit "C", 2.8); (lit "D", 4.3);
        (lit "E", 12.7); (lit "F", 2.2); (lit "G", 2.0); (lit "H", 6.1);
        (lit "I", 7.0); (lit "J", 0.2); (lit "K", 0.8); (lit "L", 4.0);
        (lit "M", 2.4); (lit "N", 6.7); (lit "O", 7.5); (lit "P", 1.9);
        (lit "Q", 0.1); (lit "R", 6.0); (lit "S", 6.3); (lit "T", 9.1);
        (lit "U", 2.8); (lit "V", 1.0); (lit "W", 2.4); (lit "X", 0.2);
        (lit "Y", 2.0); (lit "Z", 0.1) ]);
    (lit "es",
      [ (lit "A", 11.5); (lit "B", 2.2); (lit "C", 4.0); (lit "D", 5.0);
        (lit "E", 12.2); (lit "F", 0.7); (lit "G", 1.0); (lit "H", 0.7);
        (lit "I", 6.2); (lit "J", 0.5); (lit "K", 0.1); (lit "L", 5.0);
        (lit "M", 3.2); (lit "N", 7.0); (lit "O", 8.7); (lit "P", 2.5);
        (lit "Q", 0.9); (lit "R", 6.5); (lit "S", 7.3); (lit "T", 4.6);
        (lit "U", 3.9); (lit "V", 1.0); (lit "W", 0.1); (lit "X", 0.2);
        (lit "Y", 1.0); (lit "Z", 0.5); (N_tilde, 0.2) ]);
    (lit "fr",
      [ (lit "A", 7.6); (lit "B", 0.9); (lit "C", 3.0); (lit "D", 3.7);
        (lit "E", 14.7); (lit "F", 1.0); (lit "G", 0.9); (lit "H", 0.7);
        (lit "I", 7.5); (lit "J", 0.6); (lit "K", 0.1); (lit "L", 5.5);
        (lit "M", 2.9); (lit "N", 7.1); (lit "O", 5.3); (lit "P", 3.0);
        (lit "Q", 1.4); (lit "R", 6.5); (lit "S", 7.9); (lit "T", 7.2);
        (lit "U", 6.3); (lit "V", 1.8); (lit "W", 0.1); (lit "X", 0.4);
        (lit "Y", 0.3); (lit "Z", 0.1); (E_acute, 1.9); (E_grave, 0.3);
        (E_circ, 0.2); (C_cedilla, 0.1) ]) ].

Definition vowels : object (list jstring) :=
  [ (lit "en", [lit "A"; lit "E"; lit "I"; lit "O"; lit "U"; lit "Y"]);
    (lit "es", [lit "A"; lit "E"; lit "I"; lit "O"; lit "U"]);
    (lit "fr", [lit "A"; lit "E"; lit "I"; lit "O"; lit "U"; lit "Y";
                E_acute; E_grave; E_circ]) ].

(* ================================================================== *)
(** * The store and the monad of calls *)
(* ================================================================== *)

(** The address of a letter-to-number object. *)
Definition loc := nat.

(** What a call can read or write outside its own locals. *)
Record store : Type := mkStore {
  heap : list (object Q);               (* letter-to-number objects, by address *)
  freqTables : object loc;              (* [letterFrequencies]: language to table *)
  vowelTables : object (list jstring);  (* [vowels] *)
  seedrandom : option Z;                (* [Math.seedrandom] *)
  randomValues : nat -> Q;              (* what the n-th [Math.random()] returns *)
  randomCalls : nat                     (* calls of [Math.random()] so far *)
}.

Definition withHeap (s : store) (h : list (object Q)) : store :=
  mkStore h (freqTables s) (vowelTables s) (seedrandom s)
          (randomValues s) (randomCalls s).

Definition tick (s : store) : store :=
  mkStore (heap s) (freqTables s) (vowelTables s) (seedrandom s)
          (randomValues s) (S (randomCalls s)).

Definition withSeed (s : store) (seed : Z) : store :=
  mkStore (heap s) (freqTables s) (vowelTables s) (Some seed)
          (randomValues s) (randomCalls s).

(** The object at an address. *)
Definition objAt (h : list (object Q)) (l : loc) : object Q := nth l h [].

(** The heap with the object at an address replaced. *)
Fixpoint replaceAt (h : list (object Q)) (l : loc) (o : object Q)
    : list (object Q) :=
  match h, l with
  | [], _ => []
  | _ :: t, O => o :: t
  | x :: t, S l' => x :: replaceAt t l' o
  end.

Inductive error : Type := TypeError.

Inductive outcome (A : Type) : Type :=
  | Ok (a : A)
  | Throw (e : error).

Arguments Ok {A} a.
Arguments Throw {A} e.

Definition M (A : Type) : Type := store -> outcome A * store.

Definition ret {A} (a : A) : M A := fun s => (Ok a, s).

Definition throw {A} (e : error) : M A := fun s => (Throw e, s).

Definition bind {A B} (m : M A) (f : A -> M B) : M B :=
  fun s =>
    match m s with
    | (Ok a, s') => f a s'
    | (Throw e, s') => (Throw e, s')
    end.

Declare Scope js_scope.
Delimit Scope js_scope with js.
Notation "x <- m ;; k" := (bind m (fun x => k))
  (at level 100, m at next level, right associativity) : js_scope.
Notation "m ;;; k" := (bind m (fun _ => k))
  (at level 100, right associativity) : js_scope.
Local Open Scope js_scope.

(** [Math.random()]. *)
Definition Math_random : M Q :=
  fun s => (Ok (randomValues s (randomCalls s)), tick s).

(** [Math.seedrandom = seed]. *)
Definition set_seedrandom (seed : Z) : M unit :=
  fun s => (Ok tt, withSeed s seed).

(** Reading the module-level bindings. *)
Definition read_letterFrequencies : M (object loc) :=
  fun s => (Ok (freqTables s), s).

Definition read_vowels : M (object (list jstring)) :=
  fun s => (Ok (vowelTables s), s).

(** [{}]: a new object at a new address. *)
Definition newObject : M loc :=
  fun s => (Ok (length (heap s)), withHeap s (heap s ++ [[]])).

(** [o[k]] where [o] is a reference or [undefined]. *)
Definition getNumber (o : option loc) (k : jstring) : M (option Q) :=
  match o with
  | None => throw TypeError          (* property of undefined *)
  | Some l => fun s => (Ok (getProp (objAt (heap s) l) k), s)
  end.

(** [o[k] = v]. *)
Definition setNumber (l : loc) (k : jstring) (v : Q) : M unit :=
  fun s =>
    (Ok tt,
     withHeap s (replaceAt (heap s) l (setProp (objAt (heap s) l) k v))).

(** The keys a [for (k in o)] visits: none for [undefined]. *)
Definition forInKeys (o : option loc) : M (list jstring) :=
  match o with
  | None => ret []
  | Some l => fun s => (Ok (keys (objAt (heap s) l)), s)
  end.

(** [Object.keys(o)]. *)
Definition Object_keys (o : option loc) : M (list jstring) :=
  match o with
  | None => throw TypeError          (* undefined to object *)
  | Some l => fun s => (Ok (keys (objAt (heap s) l)), s)
  end.

(** [for (x of arr) { acc = body(acc, x) }] for a loop that updates the
    local [acc]. *)
Fixpoint foldM {A St} (body : St -> A -> M St) (arr : list A) (acc : St)
    : M St :=
  match arr with
  | [] => ret acc
  | x :: rest => acc' <- body acc x ;; foldM body rest acc'
  end.

(** [for (...; i < n; i++) { x = body; acc.push(x) }], [n] iterations. *)
Fixpoint forPush {A} (n : nat) (body : M A) (acc : list A) : M (list A) :=
  match n with
  | O => ret acc
  | S k => x <- body ;; forPush k body (acc ++ [x])
  end.

(** [arr.filter(p)] for a callback that may throw. *)
Fixpoint filterM {A} (p : A -> M bool) (arr : list A) : M (list A) :=
  match arr with
  | [] => ret []
  | x :: rest =>
      keep <- p x ;;
      rest' <- filterM p rest ;;
      ret (if keep then x :: rest' else rest')
  end.

(* ================================================================== *)
(** * getRandomLetter *)
(* ================================================================== *)

(** Lines 51-54: the body of the loop over [langVowels]. *)
Definition extractVowel (freq : option loc) (vowelFreq : loc)
    (totalFreq : Q) (vowel : jstring) : M Q :=
  w <- getNumber freq vowel ;;
  if truthy w then
    w <- getNumber freq vowel ;;
    setNumber vowelFreq vowel (num w) ;;;
    w <- getNumber freq vowel ;;
    ret (totalFreq + num w)
  else ret totalFreq.

(** Line 59: [vowelFreq[vowel] /= totalFreq]. *)
Definition normalizeVowel (vowelFreq : loc) (totalFreq : Q)
    (_ : unit) (vowel : jstring) : M unit :=
  w <- getNumber (Some vowelFreq) vowel ;;
  setNumber vowelFreq vowel (num w / totalFreq).

(** Lines 66-71 and 86-91: the cumulative walk with its early return;
    [None] when the loop runs to its end. *)
Fixpoint walk (obj : option loc) (random : Q) (letters : list jstring)
    (cumulativeProb : Q) : M (option jstring) :=
  match letters with
  | [] => ret None
  | letter :: rest =>
      w <- getNumber obj letter ;;
      let cumulativeProb := cumulativeProb + num w in
      if Qle_bool random cumulativeProb then ret (Some letter)
      else walk obj random rest cumulativeProb
  end.

Definition getRandomLetter (language : jstring) (ensureVowel : bool)
    : M jsval :=
  letterFrequencies <- read_letterFrequencies ;;
  let freq := orElse (getProp letterFrequencies language)
                     (getProp letterFrequencies (lit "en")) in
  if ensureVowel then
    vowels <- read_vowels ;;
    let langVowels :=
      orElse (getProp vowels language) (getProp vowels (lit "en")) in
    vowelFreq <- newObject ;;
    match langVowels with
    | None => throw TypeError            (* undefined is not iterable *)
    | Some langVowels =>
        totalFreq <- foldM (extractVowel freq vowelFreq) langVowels 0 ;;
        ks <- forInKeys (Some vowelFreq) ;;
        foldM (normalizeVowel vowelFreq totalFreq) ks tt ;;;
        random <- Math_random ;;
        ks <- forInKeys (Some vowelFreq) ;;
        found <- walk (Some vowelFreq) random ks 0 ;;
        match found with
        | Some letter => ret (Str letter)
        | None => ret (elem (at_index langVowels 0))
        end
    end
  else
    ks <- forInKeys freq ;;
    totalFreq <- foldM (fun totalFreq letter =>
                          w <- getNumber freq letter ;;
                          ret (totalFreq + num w)) ks 0 ;;
    r <- Math_random ;;
    let random := r * totalFreq in
    ks <- forInKeys freq ;;
    found <- walk freq random ks 0 ;;
    match found with
    | Some letter => ret (Str letter)
    | None => ret (Str (lit "E"))
    end.

(* ================================================================== *)
(** * generateBoard *)
(* ================================================================== *)

Record Options : Type := mkOptions {
  language : option jstring;
  vowelProbability : option Q;
  specialLetterProbability : option Q
}.

(** [options = {}]. *)
Definition noOptions : Options := mkOptions None None None.

(** A destructuring default. *)
Definition withDefault {A} (d : A) (v : option A) : A :=
  match v with
  | Some x => x
  | None => d
  end.

(** Line 132: [char => char.length > 1 || !letterFrequencies[language][char]]. *)
Definition isSpecial (letterFrequencies : object loc)
    (language : jstring) (char : jstring) : M bool :=
  if (1 <? length char)%nat then ret true
  else
    w <- getNumber (getProp letterFrequencies language) char ;;
    ret (negb (truthy w)).

(** Lines 131-132: [Object.keys(letterFrequencies[otherLang]).filter(...)]. *)
Definition specialLettersOf (letterFrequencies : object loc)
    (language : jstring) (otherLang : jsval) : M (list jstring) :=
  chars <- Object_keys (getProp letterFrequencies (propertyKey otherLang)) ;;
  filterM (isSpecial letterFrequencies language) chars.

(** [Object.keys(letterFrequencies).filter(lang => lang !== language)]. *)
Definition otherLanguages (letterFrequencies : object loc)
    (language : jstring) : list jstring :=
  filter (fun lang => negb (str_eqb lang language)) (keys letterFrequencies).

(** Lines 124-138: the substitution step applied to the base [letter]. *)
Definition substituteSpecial (language : jstring)
    (specialLetterProbability : Q) (letter : jsval) : M jsval :=
  r <- Math_random ;;
  if Qlt_bool r specialLetterProbability then
    letterFrequencies <- read_letterFrequencies ;;
    let languages := otherLanguages letterFrequencies language in
    if (0 <? length languages)%nat then
      r <- Math_random ;;
      let otherLang :=
        elem (at_index languages (floorIndex r (length languages))) in
      specialLetters <- specialLettersOf letterFrequencies language otherLang ;;
      if (0 <? length specialLetters)%nat then
        r <- Math_random ;;
        ret (elem (at_index specialLetters
                     (floorIndex r (length specialLetters))))
      else ret letter
    else ret letter
  else ret letter.

(** Lines 118-121: the base letter of a cell. *)
Definition baseLetter (language : jstring) (vowelProbability : Q)
    : M jsval :=
  r <- Math_random ;;
  let forceVowel := Qlt_bool r vowelProbability in
  getRandomLetter language forceVowel.

(** Lines 117-138: the value pushed for one cell. *)
Definition generateCell (language : jstring)
    (vowelProbability specialLetterProbability : Q) : M jsval :=
  letter <- baseLetter language vowelProbability ;;
  substituteSpecial language specialLetterProbability letter.

Definition Board := list (list jsval).

(** [rows] and [cols] are integers; the loops run [max 0 rows] and
    [max 0 cols] times. *)
Definition generateBoard (rows cols : Z) (options : Options) : M Board :=
  let language := withDefault (lit "en") (language options) in
  let vowelProbability := withDefault 0.35 (vowelProbability options) in
  let specialLetterProbability :=
    withDefault 0.15 (specialLetterProbability options) in
  forPush (Z.to_nat rows)
    (forPush (Z.to_nat cols)
       (generateCell language vowelProbability specialLetterProbability)
       [])
    [].

(* ================================================================== *)
(** * generateDailyPuzzle *)
(* ================================================================== *)

(** What [new Date()] answers to the three getters used. *)
Record Date : Type := mkDate {
  getFullYear : Z;
  getMonth : Z;      (* 0 to 11 *)
  getDate : Z
}.

Definition dateSeed (today : Date) : Z :=
  (getFullYear today * 10000 + (getMonth today + 1) * 100 + getDate today)%Z.

Definition generateDailyPuzzle (today : Date) : M Board :=
  let seed := dateSeed today in
  set_seedrandom seed ;;;
  generateBoard 6 6
    (mkOptions (Some (lit "en")) (Some 0.4) (Some 0.2)).

(* ================================================================== *)
(** * getLetterPoints *)
(* ================================================================== *)

Definition commonScoring : object Z :=
  [ (lit "A", 1); (lit "B", 3); (lit "C", 3); (lit "D", 2); (lit "E", 1);
    (lit "F", 4); (lit "G", 2); (lit "H", 4); (lit "I", 1); (lit "J", 8);
    (lit "K", 5); (lit "L", 1); (lit "M", 3); (lit "N", 1); (lit "O", 1);
    (lit "P", 3); (lit "Q", 10); (lit "R", 1); (lit "S", 1); (lit "T", 1);
    (lit "U", 1); (lit "V", 4); (lit "W", 4); (lit "X", 8); (lit "Y", 4);
    (lit "Z", 10) ]%Z.

(** Truthiness of an integer-or-undefined. *)
Definition truthyZ (v : option Z) : bool :=
  match v with
  | Some z => negb (z =? 0)%Z
  | None => false
  end.

(** [a || 2] for an integer-or-undefined [a]. *)
Definition orTwo (v : option Z) : Z :=
  match v with
  | Some z => if truthyZ v then z else 2%Z
  | None => 2%Z
  end.

(** [language] defaults to ['en'] and is not read by the body. *)
Definition getLetterPoints (letter : jstring) (language : option jstring)
    : M Z :=
  let language := withDefault (lit "en") language in
  if (1 <? length letter)%nat || negb (truthyZ (getProp commonScoring letter))
  then ret 8%Z
  else ret (orTwo (getProp commonScoring letter)).

(* ================================================================== *)
(** * The store the module starts from *)
(* ================================================================== *)

(** Loading the module allocates the tables of the literal in order. *)
Definition initialStore (randomValues : nat -> Q) : store :=
  mkStore (map snd letterFrequencies)
          (combine (keys letterFrequencies)
                   (seq 0 (length letterFrequencies)))
          vowels None randomValues 0.

(** The frequency tables as a value: each language with the object its
    reference points to. *)
Definition tableView (s : store) : object (object Q) :=
  map (fun p => (fst p, objAt (heap s) (snd p))) (freqTables s).

(** Every table reference points into the heap. *)
Definition wfStore (s : store) : Prop :=
  Forall (fun p => (snd p < length (heap s))%nat) (freqTables s).

(* ================================================================== *)
(** * Loop summaries

    What the loops of [getRandomLetter] compute, as functions of the
    objects they read.  The lemmas of the next sections show that the
    code run on a store agrees with them. *)
(* ================================================================== *)

(** The loop of lines 50-55 run on [vowelFreq] and [totalFreq]. *)
Fixpoint extractVowels (freq : object Q) (langVowels : list jstring)
    (vowelFreq : object Q) (totalFreq : Q) : object Q * Q :=
  match langVowels with
  | [] => (vowelFreq, totalFreq)
  | vowel :: rest =>
      if truthy (getProp freq vowel) then
        extractVowels freq rest
          (setProp vowelFreq vowel (num (getProp freq vowel)))
          (totalFreq + num (getProp freq vowel))
      else extractVowels freq rest vowelFreq totalFreq
  end.

(** The loop of lines 58-60 over the keys [ks]. *)
Definition normalizeKeys (totalFreq : Q) (ks : list jstring)
    (vowelFreq : object Q) : object Q :=
  fold_left
    (fun o vowel => setProp o vowel (num (getProp o vowel) / totalFreq))
    ks vowelFreq.

(** [vowelFreq] after lines 46-60. *)
Definition vowelWeights (freq : object Q) (langVowels : list jstring)
    : object Q :=
  let vt := extractVowels freq langVowels [] 0 in
  normalizeKeys (snd vt) (keys (fst vt)) (fst vt).

(** The loop of lines 79-81 over the keys [ks]. *)
Definition sumKeys (freq : object Q) (ks : list jstring) (totalFreq : Q)
    : Q :=
  fold_left (fun total letter => total + num (getProp freq letter))
    ks totalFreq.

(** The loops of lines 66-71 and 86-91. *)
Fixpoint walkObj (freq : object Q) (random : Q) (letters : list jstring)
    (cumulativeProb : Q) : option jstring :=
  match letters with
  | [] => None
  | letter :: rest =>
      let cumulativeProb := cumulativeProb + num (getProp freq letter) in
      if Qle_bool random cumulativeProb then Some letter
      else walkObj freq random rest cumulativeProb
  end.

(** The result of the regular path on the table [freq] for the draw [r]. *)
Definition pickGeneral (freq : object Q) (r : Q) : jsval :=
  match walkObj freq (r * sumKeys freq (keys freq) 0) (keys freq) 0 with
  | Some letter => Str letter
  | None => Str (lit "E")
  end.

(** The result of the vowel path on the table [freq] for the draw [r]. *)
Definition pickVowel (freq : object Q) (langVowels : list jstring) (r : Q)
    : jsval :=
  let vowelFreq := vowelWeights freq langVowels in
  match walkObj vowelFreq r (keys vowelFreq) 0 with
  | Some letter => Str letter
  | None => elem (at_index langVowels 0)
  end.

(** [table[language] || table.en]. *)
Definition forLanguage {V} (table : object V) (language : jstring)
    : option V :=
  orElse (getProp table language) (getProp table (lit "en")).

(** The properties a [for ... in] visits: none for [undefined]. *)
Definition ownProps (freq : option (object Q)) : object Q :=
  match freq with
  | Some o => o
  | None => []
  end.

(* ================================================================== *)
(** * What a call may change *)
(* ================================================================== *)

(** [s'] differs from [s] by new objects at new addresses, by draws of
    the random source and by [Math.seedrandom] only. *)
Definition extends (s s' : store) : Prop :=
  (exists ext, heap s' = heap s ++ ext) /\
  freqTables s' = freqTables s /\
  vowelTables s' = vowelTables s /\
  randomValues s' = randomValues s /\
  (randomCalls s <= randomCalls s')%nat.

(** A computation that, returning or throwing, only extends the store. *)
Definition framed {A} (m : M A) : Prop :=
  forall s, wfStore s -> extends s (snd (m s)).

(* ================================================================== *)
(** * Predicates on stores and cells, and the specification's words *)
(* ================================================================== *)

(** The scoring rule in the words of the specification: 8 for a glyph
    of more than one character or a letter that is not a key of the
    scoring table, the table's value otherwise. *)
Definition pointsSpec (letter : jstring) : Z :=
  if (1 <? length letter)%nat then 8%Z
  else
    match getProp commonScoring letter with
    | None => 8%Z
    | Some points => points
    end.

(** The objects that existed before a call are what they were, and the
    two tables bind what they bound. *)
Definition tablesUnchanged (s s' : store) : Prop :=
  freqTables s' = freqTables s /\
  vowelTables s' = vowelTables s /\
  tableView s' = tableView s /\
  forall l, (l < length (heap s))%nat ->
            objAt (heap s') l = objAt (heap s) l.

(** Draws of a day on which every cell of a first board takes three
    draws of one half, and later draws are nine tenths. *)
Definition drawsOfADay (n : nat) : Q :=
  if (n <? 108)%nat then 0.5 else 0.9.

(** A board with the same letter in every cell. *)
Definition uniformBoard (rows cols : nat) (letter : jstring) : Board :=
  repeat (repeat (Str letter) cols) rows.

(** [Math.random()] answers in [0, 1). *)
Definition validRandom (s : store) : Prop :=
  forall n, 0 <= randomValues s n /\ randomValues s n < 1.

(** The store holds the tables of the module. *)
Definition staticTables (s : store) : Prop :=
  wfStore s /\ tableView s = letterFrequencies /\ vowelTables s = vowels.

(** A store a call of the module can start from. *)
Definition moduleStore (s : store) : Prop :=
  staticTables s /\ validRandom s.

(** From a store satisfying [I] the computation returns a value
    satisfying [P] and leaves a store satisfying [I]. *)
Definition returns {A} (I : store -> Prop) (m : M A) (P : A -> Prop)
    : Prop :=
  forall s, I s -> exists a s', m s = (Ok a, s') /\ P a /\ I s'.

(** The filter of line 132 on the objects it reads. *)
Definition specialLetters (main other : object Q) : list jstring :=
  filter (fun char =>
            (1 <? length char)%nat || negb (truthy (getProp main char)))
         (keys other).

(** A cell that holds a non-empty string. *)
Definition nonEmptyString (cell : jsval) : Prop :=
  exists letter, cell = Str letter /\ letter <> [].

(** A cell that holds one of the letters of a list. *)
Definition letterAmong (letters : list jstring) (cell : jsval) : Prop :=
  exists letter, cell = Str letter /\ In letter letters.

(** The letters the specification allows with forced vowels in English. *)
Definition englishVowels : list jstring :=
  [lit "A"; lit "E"; lit "I"; lit "O"; lit "U"; lit "Y"].

(** A cell without substitution: the base letter of step 1, and the one
    draw that step 2 compares with [specialLetterProbability]. *)
Definition baseCell (language : jstring) (vowelProbability : Q) : M jsval :=
  letter <- baseLetter language vowelProbability ;;
  Math_random ;;;
  ret letter.

(** The board of the base letters. *)
Definition baseBoard (rows cols : Z) (language : jstring)
    (vowelProbability : Q) : M Board :=
  forPush (Z.to_nat rows)
    (forPush (Z.to_nat cols) (baseCell language vowelProbability) [])
    [].

(** The substitution set that the step starting in [s] computes: the
    special characters of the other language its second draw selects. *)
Definition chosenSpecialLetters (language : jstring) (s : store)
    : outcome (list jstring) :=
  let languages := otherLanguages (freqTables s) language in
  let r := randomValues s (S (randomCalls s)) in
  let otherLang :=
    elem (at_index languages (floorIndex r (length languages))) in
  fst (specialLettersOf (freqTables s) language otherLang (tick (tick s))).

(** No language other than [language] is configured. *)
Definition onlyLanguage (language : jstring) (s : store) : Prop :=
  wfStore s /\ otherLanguages (freqTables s) language = [].

(** A module whose only table is the English one. *)
Definition englishOnlyStore (randomValues : nat -> Q) : store :=
  mkStore [ownProps (getProp letterFrequencies (lit "en"))]
          [(lit "en", 0%nat)]
          vowels None randomValues 0.

(** The strings of a list are pairwise distinct. *)
Fixpoint distinct (l : list jstring) : bool :=
  match l with
  | [] => true
  | x :: rest => negb (existsb (str_eqb x) rest) && distinct rest
  end.

(** A computation that neither reads nor writes [Math.seedrandom]: run
    with another value of the property it does the same and leaves that
    value in place. *)
Definition seedBlind {A} (m : M A) : Prop :=
  forall s seed, m (withSeed s seed) = (fst (m s), withSeed (snd (m s)) seed).

(** The options of the daily puzzle. *)
Definition dailyOptions : Options :=
  mkOptions (Some (lit "en")) (Some 0.4) (Some 0.2).

(* ================================================================== *)
(** * Further predicates *)
(* ================================================================== *)

(** The property names every object inherits from [Object.prototype];
    a lookup of one of them on an object literal finds the inherited
    member, which the own-property lookup [getProp] does not model. *)
Definition objectPrototypeNames : list jstring :=
  [ lit "constructor"; lit "__defineGetter__"; lit "__defineSetter__";
    lit "hasOwnProperty"; lit "__lookupGetter__"; lit "__lookupSetter__";
    lit "isPrototypeOf"; lit "propertyIsEnumerable"; lit "toString";
    lit "valueOf"; lit "__proto__"; lit "toLocaleString" ].

(** A key that is not an inherited name: [o[k]] is the own property or
    [undefined]. *)
Definition plainName (k : jstring) : bool :=
  negb (existsb (str_eqb k) objectPrototypeNames).

(** What the getters of a [Date] can answer for the month and the day. *)
Definition validDate (d : Date) : Prop :=
  (0 <= getMonth d <= 11)%Z /\ (1 <= getDate d <= 31)%Z.

(** The store with [Math.seedrandom] holding [v], [None] for a property
    that was never assigned. *)
Definition withSeedrandom (s : store) (v : option Z) : store :=
  mkStore (heap s) (freqTables s) (vowelTables s) v
          (randomValues s) (randomCalls s).

(** A computation on which [Math.seedrandom] has no influence and which
    leaves it as it is. *)
Definition seedFree {A} (m : M A) : Prop :=
  forall s v,
    m (withSeedrandom s v) = (fst (m s), withSeedrandom (snd (m s)) v).

(** When the computation returns, it has made between [lo] and [hi]
    calls of [Math.random()] and created at most [allocs] objects. *)
Definition spends {A} (lo hi allocs : nat) (m : M A) : Prop :=
  forall s v s',
    wfStore s -> m s = (Ok v, s') ->
    (randomCalls s + lo <= randomCalls s' <= randomCalls s + hi)%nat /\
    (length (heap s) <= length (heap s') <= length (heap s) + allocs)%nat.

(** A letter of another language's table that the table [own] of the
    language [lang] does not have. *)
Definition borrowedLetter (lang : jstring) (own : object Q) (l : jstring)
    : Prop :=
  ~ In l (keys own) /\
  exists other table,
    other <> lang /\ In (other, table) letterFrequencies /\
    In l (keys table).

(** A cell that holds a single character, a letter of the language's
    own table or a letter borrowed from another language. *)
Definition boardLetter (lang : jstring) (own : object Q) (cell : jsval)
    : Prop :=
  exists l,
    cell = Str l /\ length l = 1%nat /\
    (In l (keys own) \/ borrowedLetter lang own l).

(** The accented letters that Spanish and French have and English does
    not. *)
Definition accentedLetters : list jstring :=
  [N_tilde; E_acute; E_grave; E_circ; C_cedilla].

(* ================================================================== *)
(** * The sampler in the arithmetic of the code

    Which letter a draw selects depends on how [+], [*], [/] and [<=]
    round.  This section gives lines 44-94 of [getRandomLetter] as a
    function of the arithmetic: of the table [freq] that line 41 finds,
    of the vowel list [langVowels] of line 45 and of the value that
    [Math.random()] returns, with every operation on numbers taken from
    a record and applied in the order of the source.  [binary64] is the
    arithmetic the source runs in, [rational] the exact one of the
    embedding on stores. *)
(* ================================================================== *)

(** The operations on numbers that [getRandomLetter] uses. *)
Record arithmetic : Type := mkArithmetic {
  number : Type;
  n_zero : number;                          (* the literal [0] *)
  n_add : number -> number -> number;       (* [a + b] *)
  n_mul : number -> number -> number;       (* [a * b] *)
  n_div : number -> number -> number;       (* [a / b] *)
  n_leb : number -> number -> bool;         (* [a <= b] *)
  n_truthy : number -> bool                 (* [if (a)] *)
}.

(** Exact arithmetic on rationals. *)
Definition rational : arithmetic :=
  mkArithmetic Q 0 Qplus Qmult Qdiv Qle_bool
    (fun q => negb (Qeq_bool q 0)).

(** IEEE 754 binary64, rounding to nearest, ties to even: the numbers
    of JavaScript.  A number is falsy when it is [+0], [-0] or [NaN];
    [eqb] is the IEEE equality, under which the two zeros are equal and
    [NaN] differs from itself. *)
Definition binary64 : arithmetic :=
  mkArithmetic PrimFloat.float PrimFloat.zero
    PrimFloat.add PrimFloat.mul PrimFloat.div PrimFloat.leb
    (fun x => negb (PrimFloat.eqb x PrimFloat.zero) && PrimFloat.eqb x x).

Section Sampler.

Variable A : arithmetic.

(** Truthiness of a number-or-undefined. *)
Definition truthyIn (v : option (number A)) : bool :=
  match v with
  | Some x => n_truthy A x
  | None => false
  end.

(** The number read from a property known to exist. *)
Definition numIn (v : option (number A)) : number A :=
  match v with
  | Some x => x
  | None => n_zero A
  end.

(** Lines 50-55: the loop over [langVowels], run on [vowelFreq] and
    [totalFreq]. *)
Fixpoint extractVowelsIn (freq : object (number A))
    (langVowels : list jstring) (vowelFreq : object (number A))
    (totalFreq : number A) : object (number A) * number A :=
  match langVowels with
  | [] => (vowelFreq, totalFreq)
  | vowel :: rest =>
      if truthyIn (getProp freq vowel) then
        extractVowelsIn freq rest
          (setProp vowelFreq vowel (numIn (getProp freq vowel)))
          (n_add A totalFreq (numIn (getProp freq vowel)))
      else extractVowelsIn freq rest vowelFreq totalFreq
  end.

(** Lines 58-60: [vowelFreq[vowel] /= totalFreq] for the keys [ks]. *)
Definition normalizeKeysIn (totalFreq : number A) (ks : list jstring)
    (vowelFreq : object (number A)) : object (number A) :=
  fold_left
    (fun o vowel =>
       setProp o vowel (n_div A (numIn (getProp o vowel)) totalFreq))
    ks vowelFreq.

(** [vowelFreq] after lines 46-60. *)
Definition vowelWeightsIn (freq : object (number A))
    (langVowels : list jstring) : object (number A) :=
  let vt := extractVowelsIn freq langVowels [] (n_zero A) in
  normalizeKeysIn (snd vt) (keys (fst vt)) (fst vt).

(** Lines 78-81: [totalFreq += freq[letter]] for the keys [ks]. *)
Definition sumKeysIn (freq : object (number A)) (ks : list jstring)
    (totalFreq : number A) : number A :=
  fold_left (fun total letter => n_add A total (numIn (getProp freq letter)))
    ks totalFreq.

(** Lines 66-71 and 86-91: the cumulative walk with its early return;
    [None] when the loop runs to its end. *)
Fixpoint walkIn (freq : object (number A)) (random : number A)
    (letters : list jstring) (cumulativeProb : number A)
    : option jstring :=
  match letters with
  | [] => None
  | letter :: rest =>
      let cumulativeProb :=
        n_add A cumulativeProb (numIn (getProp freq letter)) in
      if n_leb A random cumulativeProb then Some letter
      else walkIn freq random rest cumulativeProb
  end.

(** Lines 44-94, where [r] is the value of [Math.random()]. *)
Definition getRandomLetterIn (freq : object (number A))
    (langVowels : list jstring) (ensureVowel : bool) (r : number A)
    : jsval :=
  if ensureVowel then
    let vowelFreq := vowelWeightsIn freq langVowels in
    let random := r in
    match walkIn vowelFreq random (keys vowelFreq) (n_zero A) with
    | Some letter => Str letter
    | None => elem (at_index langVowels 0)
    end
  else
    let totalFreq := sumKeysIn freq (keys freq) (n_zero A) in
    let random := n_mul A r totalFreq in
    match walkIn freq random (keys freq) (n_zero A) with
    | Some letter => Str letter
    | None => Str (lit "E")
    end.

(** ** Roulette-wheel selection, in the words of the specification *)

(** The sum of the weights of the entries, added up in table order. *)
Definition totalIn (entries : object (number A)) : number A :=
  fold_left (fun total e => n_add A total (snd e)) entries (n_zero A).

(** The cumulative weight of the entry at position [i]: the weights of
    the entries up to and including it, added up. *)
Definition cumulativeWeightIn (entries : object (number A)) (i : nat)
    : number A :=
  totalIn (firstn (S i) entries).



(** The vowels of the set that have a nonzero weight in the table, with
    their weights. *)
Definition vowelSubsetIn (table : object (number A))
    (vowelSet : list jstring) : object (number A) :=
  map (fun v => (v, numIn (getProp table v)))
      (filter (fun v => truthyIn (getProp table v)) vowelSet).

(** The weights divided by their sum. *)
Definition renormalizeIn (entries : object (number A))
    : object (number A) :=
  map (fun e => (fst e, n_div A (snd e) (totalIn entries))) entries.


End Sampler.

(** ** The tables as the source's doubles *)

Module Doubles.

Import PrimFloat.

Local Open Scope float_scope.

(** Lines 6-25: each literal is the double nearest to its decimal. *)
Definition letterFrequencies : object (object float) :=
  [ (lit "en",
      [ (lit "A", 8.2); (lit "B", 1.5); (lit "C", 2.8); (lit "D", 4.3);
        (lit "E", 12.7); (lit "F", 2.2); (lit "G", 2.0); (lit "H", 6.1);
        (lit "I", 7.0); (lit "J", 0.2); (lit "K", 0.8); (lit "L", 4.0);
        (lit "M", 2.4); (lit "N", 6.7); (lit "O", 7.5); (lit "P", 1.9);
        (lit "Q", 0.1); (lit "R", 6.0); (lit "S", 6.3); (lit "T", 9.1);
        (lit "U", 2.8); (lit "V", 1.0); (lit "W", 2.4); (lit "X", 0.2);
        (lit "Y", 2.0); (lit "Z", 0.1) ]);
    (lit "es",
      [ (lit "A", 11.5); (lit "B", 2.2); (lit "C", 4.0); (lit "D", 5.0);
        (lit "E", 12.2); (lit "F", 0.7); (lit "G", 1.0); (lit "H", 0.7);
        (lit "I", 6.2); (lit "J", 0.5); (lit "K", 0.1); (lit "L", 5.0);
        (lit "M", 3.2); (lit "N", 7.0); (lit "O", 8.7); (lit "P", 2.5);
        (lit "Q", 0.9); (lit "R", 6.5); (lit "S", 7.3); (lit "T", 4.6);
        (lit "U", 3.9); (lit "V", 1.0); (lit "W", 0.1); (lit "X", 0.2);
        (lit "Y", 1.0); (lit "Z", 0.5); (N_tilde, 0.2) ]);
    (lit "fr",
      [ (lit "A", 7.6); (lit "B", 0.9); (lit "C", 3.0); (lit "D", 3.7);
        (lit "E", 14.7); (lit "F", 1.0); (lit "G", 0.9); (lit "H", 0.7);
        (lit "I", 7.5); (lit "J", 0.6); (lit "K", 0.1); (lit "L", 5.5);
        (lit "M", 2.9); (lit "N", 7.1); (lit "O", 5.3); (lit "P", 3.0);
        (lit "Q", 1.4); (lit "R", 6.5); (lit "S", 7.9); (lit "T", 7.2);
        (lit "U", 6.3); (lit "V", 1.8); (lit "W", 0.1); (lit "X", 0.4);
        (lit "Y", 0.3); (lit "Z", 0.1); (E_acute, 1.9); (E_grave, 0.3);
        (E_circ, 0.2); (C_cedilla, 0.1) ]) ].

(** Line 41: [letterFrequencies[language] || letterFrequencies.en], for
    a language code that is not a name of [Object.prototype]. *)
Definition table (language : jstring) : object float :=
  match orElse (getProp letterFrequencies language)
               (getProp letterFrequencies (lit "en")) with
  | Some freq => freq
  | None => []
  end.

(** Line 45: [vowels[language] || vowels.en], likewise. *)
Definition vowelList (language : jstring) : list jstring :=
  match orElse (getProp vowels language) (getProp vowels (lit "en")) with
  | Some langVowels => langVowels
  | None => []
  end.

(** The double nearest to a decimal whose numerator and denominator are
    doubles: the correctly rounded quotient of the two. *)
Definition ofDecimal (q : Q) : float :=
  of_uint63 (Uint63.of_Z (Qnum q)) / of_uint63 (Uint63.of_Z (Zpos (Qden q))).

Definition beforeOne : float := 0.9999999999999999.

(** Two numbers of [[0, 1)] taken as the value of [Math.random()]. *)
Definition drawEnglish : float := 0.1674975074775673.
Definition drawFrench : float := 0.9455782312925172.

End Doubles.

(* ================================================================== *)
(** * Facts about strings and objects *)
(* ================================================================== *)

Lemma str_eqb_refl (a : jstring) : str_eqb a a = true.
Proof.
  induction a as [|x a IH]; simpl; [reflexivity|].
  now rewrite N.eqb_refl, IH.
Qed.

Lemma str_eqb_eq (a b : jstring) : str_eqb a b = true -> a = b.
Proof.
  revert b; induction a as [|x a IH]; intros [|y b]; simpl;
    try discriminate; [reflexivity|].
  intros H. apply andb_prop in H as [Hx Ha].
  apply N.eqb_eq in Hx. apply IH in Ha. now subst.
Qed.

Section Objects.
Context {V : Type}.
Implicit Types (o : object V) (k : jstring) (v : V).

Lemma getProp_Some_In o k v :
  getProp o k = Some v -> In (k, v) o.
Proof.
  induction o as [|[k' v'] o IH]; simpl; [discriminate|].
  destruct (str_eqb k' k) eqn:E.
  - intros [= ->]. apply str_eqb_eq in E. subst. now left.
  - intros H. right. now apply IH.
Qed.

Lemma key_getProp o k :
  In k (keys o) -> exists v, getProp o k = Some v.
Proof.
  induction o as [|[k' v'] o IH]; simpl; [tauto|].
  intros [E | H].
  - subst. rewrite str_eqb_refl. eauto.
  - destruct (str_eqb k' k); eauto.
Qed.


Lemma keys_setProp_old o k v :
  In k (keys o) -> keys (setProp o k v) = keys o.
Proof.
  induction o as [|[k' v'] o IH]; simpl; [tauto|].
  intros H. destruct (str_eqb k' k) eqn:E; simpl; [reflexivity|].
  f_equal. apply IH. destruct H as [H | H]; [|assumption].
  subst. rewrite str_eqb_refl in E. discriminate.
Qed.

Lemma keys_setProp_new o k v :
  ~ In k (keys o) -> keys (setProp o k v) = keys o ++ [k].
Proof.
  induction o as [|[k' v'] o IH]; simpl; [reflexivity|].
  intros H. destruct (str_eqb k' k) eqn:E; simpl.
  - apply str_eqb_eq in E. subst. tauto.
  - f_equal. apply IH. tauto.
Qed.

Lemma keys_setProp_incl o k v k0 :
  In k0 (keys (setProp o k v)) -> k0 = k \/ In k0 (keys o).
Proof.
  destruct (in_dec (list_eq_dec N.eq_dec) k (keys o)) as [H | H].
  - rewrite keys_setProp_old by assumption. tauto.
  - rewrite keys_setProp_new by assumption. rewrite in_app_iff. simpl.
    intros [H0 | [H0 | []]]; auto.
Qed.
End Objects.

(* ================================================================== *)
(** * Facts about the heap *)
(* ================================================================== *)

Lemma objAt_old (h ext : list (object Q)) (l : loc) :
  (l < length h)%nat -> objAt (h ++ ext) l = objAt h l.
Proof. intros H. unfold objAt. now apply app_nth1. Qed.

Lemma objAt_new (h : list (object Q)) (o : object Q) :
  objAt (h ++ [o]) (length h) = o.
Proof. unfold objAt. rewrite app_nth2, Nat.sub_diag; [reflexivity | lia]. Qed.

Lemma replaceAt_new (h : list (object Q)) (o o' : object Q) :
  replaceAt (h ++ [o]) (length h) o' = h ++ [o'].
Proof. induction h as [|x h IH]; simpl; [reflexivity | now rewrite IH]. Qed.

(* ================================================================== *)
(** * The loops of getRandomLetter on a store *)
(* ================================================================== *)

Lemma bind_Ok {A B} (m : M A) (f : A -> M B) (s s' : store) (a : A) :
  m s = (Ok a, s') -> bind m f s = f a s'.
Proof. intros H. unfold bind. now rewrite H. Qed.

(** The extraction loop writes the new object only. *)
Lemma extract_run (s : store) (h : list (object Q)) (f : loc) :
  (f < length h)%nat ->
  forall (langVowels : list jstring) (vowelFreq : object Q) (totalFreq : Q),
    foldM (extractVowel (Some f) (length h)) langVowels totalFreq
      (withHeap s (h ++ [vowelFreq]))
    = (Ok (snd (extractVowels (objAt h f) langVowels vowelFreq totalFreq)),
       withHeap s
         (h ++ [fst (extractVowels (objAt h f) langVowels vowelFreq
                       totalFreq)])).
Proof.
  intros Hf langVowels.
  induction langVowels as [|vowel rest IH]; intros vowelFreq totalFreq;
    simpl; [reflexivity|].
  unfold bind at 1. unfold extractVowel at 1.
  unfold bind, getNumber, setNumber, ret; simpl.
  rewrite (objAt_old _ _ _ Hf).
  destruct (truthy (getProp (objAt h f) vowel)); simpl.
  - rewrite objAt_new, replaceAt_new.
    rewrite !objAt_old by exact Hf. apply IH.
  - apply IH.
Qed.

Lemma normalize_run (s : store) (h : list (object Q)) (totalFreq : Q) :
  forall (ks : list jstring) (vowelFreq : object Q),
    foldM (normalizeVowel (length h) totalFreq) ks tt
      (withHeap s (h ++ [vowelFreq]))
    = (Ok tt, withHeap s (h ++ [normalizeKeys totalFreq ks vowelFreq])).
Proof.
  induction ks as [|vowel rest IH]; intros vowelFreq; simpl; [reflexivity|].
  unfold bind at 1. unfold normalizeVowel at 1.
  unfold bind, getNumber, setNumber; simpl.
  rewrite objAt_new, replaceAt_new. apply IH.
Qed.

Lemma walk_run (s : store) (l : loc) (random : Q) :
  forall (letters : list jstring) (cumulativeProb : Q),
    walk (Some l) random letters cumulativeProb s
    = (Ok (walkObj (objAt (heap s) l) random letters cumulativeProb), s).
Proof.
  induction letters as [|letter rest IH]; intros c; simpl; [reflexivity|].
  unfold bind, getNumber; simpl.
  destruct (Qle_bool random (c + num (getProp (objAt (heap s) l) letter)));
    [reflexivity | apply IH].
Qed.

Lemma sum_run (s : store) (l : loc) :
  forall (ks : list jstring) (totalFreq : Q),
    foldM (fun totalFreq letter =>
             w <- getNumber (Some l) letter ;; ret (totalFreq + num w))
          ks totalFreq s
    = (Ok (sumKeys (objAt (heap s) l) ks totalFreq), s).
Proof.
  induction ks as [|letter rest IH]; intros t; simpl; [reflexivity|].
  unfold bind at 1. unfold bind, getNumber, ret; simpl. apply IH.
Qed.

(* ================================================================== *)
(** * The tables as a value *)
(* ================================================================== *)

Lemma getProp_tableView (s : store) (k : jstring) :
  getProp (tableView s) k
  = option_map (objAt (heap s)) (getProp (freqTables s) k).
Proof.
  unfold tableView.
  induction (freqTables s) as [|[k' l] t IH]; simpl; [reflexivity|].
  destruct (str_eqb k' k); [reflexivity | apply IH].
Qed.

Lemma keys_tableView (s : store) : keys (tableView s) = keys (freqTables s).
Proof.
  unfold tableView, keys. rewrite map_map. now apply map_ext.
Qed.

Lemma forLanguage_tableView (s : store) (language : jstring) :
  forLanguage (tableView s) language
  = option_map (objAt (heap s)) (forLanguage (freqTables s) language).
Proof.
  unfold forLanguage. rewrite !getProp_tableView.
  now destruct (getProp (freqTables s) language).
Qed.

Lemma wfStore_getProp (s : store) (k : jstring) (f : loc) :
  wfStore s -> getProp (freqTables s) k = Some f -> (f < length (heap s))%nat.
Proof.
  intros Hwf H. apply getProp_Some_In in H.
  unfold wfStore in Hwf. rewrite Forall_forall in Hwf.
  exact (Hwf _ H).
Qed.

Lemma wfStore_forLanguage (s : store) (language : jstring) (f : loc) :
  wfStore s -> forLanguage (freqTables s) language = Some f ->
  (f < length (heap s))%nat.
Proof.
  unfold forLanguage. intros Hwf.
  destruct (getProp (freqTables s) language) eqn:E; simpl.
  - intros [= <-]. eapply wfStore_getProp; eauto.
  - intros H. eapply wfStore_getProp; eauto.
Qed.

(* ================================================================== *)
(** * getRandomLetter on a store *)
(* ================================================================== *)

(** The regular path reads the table and draws once. *)
Lemma getRandomLetter_general (s : store) (language : jstring) :
  getRandomLetter language false s
  = (Ok (pickGeneral (ownProps (forLanguage (tableView s) language))
           (randomValues s (randomCalls s))),
     tick s).
Proof.
  rewrite forLanguage_tableView.
  unfold getRandomLetter, read_letterFrequencies, bind at 1.
  fold (forLanguage (freqTables s) language).
  destruct (forLanguage (freqTables s) language) as [f|]; simpl.
  - unfold bind at 1. simpl.
    erewrite bind_Ok by apply sum_run.
    unfold bind at 1, Math_random. unfold bind at 1. simpl.
    erewrite bind_Ok by apply walk_run.
    unfold pickGeneral. simpl.
    destruct (walkObj _ _ _ _); reflexivity.
  - reflexivity.
Qed.

(** The vowel path on a table: a new object holds the normalized vowel
    weights, one draw is made. *)
Lemma getRandomLetter_vowel (s : store) (language : jstring) (f : loc)
    (langVowels : list jstring) :
  wfStore s ->
  forLanguage (freqTables s) language = Some f ->
  forLanguage (vowelTables s) language = Some langVowels ->
  getRandomLetter language true s
  = (Ok (pickVowel (objAt (heap s) f) langVowels
           (randomValues s (randomCalls s))),
     tick (withHeap s
             (heap s ++ [vowelWeights (objAt (heap s) f) langVowels]))).
Proof.
  intros Hwf Hf Hv.
  pose proof (wfStore_forLanguage s language f Hwf Hf) as Hlt.
  unfold getRandomLetter, read_letterFrequencies, read_vowels, bind at 1.
  unfold bind at 1.
  fold (forLanguage (freqTables s) language).
  fold (forLanguage (vowelTables s) language).
  rewrite Hf, Hv.
  unfold bind at 1, newObject.
  erewrite bind_Ok by apply (extract_run s (heap s) f Hlt).
  unfold bind at 1, forInKeys. cbn [heap withHeap].
  rewrite objAt_new.
  erewrite bind_Ok by apply normalize_run.
  unfold bind at 1, Math_random. unfold bind at 1.
  cbn [heap withHeap tick randomValues randomCalls]. rewrite objAt_new.
  erewrite bind_Ok by apply walk_run.
  cbn [heap withHeap tick]. rewrite objAt_new.
  unfold pickVowel, vowelWeights.
  destruct (walkObj _ _ _ 0); reflexivity.
Qed.

(** Without a vowel list the loop header throws, after [vowelFreq] was
    created. *)
Lemma getRandomLetter_no_vowels (s : store) (language : jstring) :
  forLanguage (vowelTables s) language = None ->
  getRandomLetter language true s
  = (Throw TypeError, withHeap s (heap s ++ [[]])).
Proof.
  intros Hv.
  unfold getRandomLetter, read_letterFrequencies, read_vowels, bind at 1.
  unfold bind at 1.
  fold (forLanguage (vowelTables s) language). rewrite Hv.
  reflexivity.
Qed.

(** Without a table the first iteration throws. *)
Lemma getRandomLetter_no_table (s : store) (language : jstring)
    (langVowels : list jstring) :
  forLanguage (freqTables s) language = None ->
  forLanguage (vowelTables s) language = Some langVowels ->
  getRandomLetter language true s
  = match langVowels with
    | [] => (Ok Undefined, tick (withHeap s (heap s ++ [[]])))
    | _ :: _ => (Throw TypeError, withHeap s (heap s ++ [[]]))
    end.
Proof.
  intros Hf Hv.
  unfold getRandomLetter, read_letterFrequencies, read_vowels, bind at 1.
  unfold bind at 1.
  fold (forLanguage (freqTables s) language).
  fold (forLanguage (vowelTables s) language).
  rewrite Hf, Hv.
  unfold bind at 1, newObject.
  destruct langVowels as [|v rest]; [|reflexivity].
  unfold bind, forInKeys, Math_random; simpl.
  rewrite objAt_new. simpl. rewrite objAt_new. reflexivity.
Qed.

(* ================================================================== *)
(** * Frame: calls only extend the store *)
(* ================================================================== *)

Lemma extends_refl (s : store) : extends s s.
Proof.
  repeat split; try reflexivity. exists []. now rewrite app_nil_r.
Qed.

Lemma extends_trans (s1 s2 s3 : store) :
  extends s1 s2 -> extends s2 s3 -> extends s1 s3.
Proof.
  intros ([e1 H1] & F1 & V1 & R1 & C1) ([e2 H2] & F2 & V2 & R2 & C2).
  repeat split; try congruence; try lia.
  exists (e1 ++ e2). rewrite H2, H1. now rewrite app_assoc.
Qed.

Lemma extends_wfStore (s s' : store) :
  wfStore s -> extends s s' -> wfStore s'.
Proof.
  intros Hwf ([e H] & F & _). unfold wfStore in *. rewrite F, H.
  eapply Forall_impl; [|exact Hwf]. intros p Hp. simpl in Hp.
  rewrite length_app. lia.
Qed.

Lemma extends_objAt (s s' : store) (l : loc) :
  extends s s' -> (l < length (heap s))%nat ->
  objAt (heap s') l = objAt (heap s) l.
Proof.
  intros ([e H] & _) Hl. rewrite H. now apply objAt_old.
Qed.

Lemma extends_tableView (s s' : store) :
  wfStore s -> extends s s' -> tableView s' = tableView s.
Proof.
  intros Hwf Hext. pose proof Hext as (_ & F & _).
  unfold tableView. rewrite F. apply map_ext_in. intros p Hp.
  f_equal. apply extends_objAt; [assumption|].
  unfold wfStore in Hwf. rewrite Forall_forall in Hwf. now apply Hwf.
Qed.

Lemma extends_tick (s : store) : extends s (tick s).
Proof.
  repeat split; simpl; try reflexivity; try lia.
  exists []. now rewrite app_nil_r.
Qed.

Lemma extends_alloc (s : store) (o : object Q) :
  extends s (withHeap s (heap s ++ [o])).
Proof. repeat split; simpl; try reflexivity. now exists [o]. Qed.

Lemma framed_ret {A} (a : A) : framed (ret a).
Proof. intros s _. apply extends_refl. Qed.

Lemma framed_bind {A B} (m : M A) (f : A -> M B) :
  framed m -> (forall a, framed (f a)) -> framed (bind m f).
Proof.
  intros Hm Hf s Hwf. specialize (Hm s Hwf). unfold bind.
  destruct (m s) as [[a | e] s1]; simpl in *; [|assumption].
  eapply extends_trans; [exact Hm|].
  apply Hf. eapply extends_wfStore; eauto.
Qed.

Lemma framed_Math_random : framed Math_random.
Proof. intros s _. apply extends_tick. Qed.

Lemma framed_set_seedrandom (seed : Z) : framed (set_seedrandom seed).
Proof.
  intros s _. repeat split; simpl; try reflexivity.
  exists []. now rewrite app_nil_r.
Qed.

Lemma framed_read_letterFrequencies : framed read_letterFrequencies.
Proof. intros s _. apply extends_refl. Qed.

Lemma framed_getNumber (o : option loc) (k : jstring) :
  framed (getNumber o k).
Proof. destruct o; intros s _; apply extends_refl. Qed.

Lemma framed_Object_keys (o : option loc) : framed (Object_keys o).
Proof. destruct o; intros s _; apply extends_refl. Qed.

Lemma framed_forPush {A} (body : M A) :
  framed body -> forall n acc, framed (forPush n body acc).
Proof.
  intros Hb. induction n as [|n IH]; intros acc; simpl.
  - apply framed_ret.
  - apply framed_bind; [assumption | intros x; apply IH].
Qed.

Lemma framed_filterM {A} (p : A -> M bool) :
  (forall x, framed (p x)) -> forall arr, framed (filterM p arr).
Proof.
  intros Hp. induction arr as [|x rest IH]; simpl.
  - apply framed_ret.
  - apply framed_bind; [apply Hp | intros keep].
    apply framed_bind; [apply IH | intros rest']. apply framed_ret.
Qed.

Lemma framed_getRandomLetter (language : jstring) (ensureVowel : bool) :
  framed (getRandomLetter language ensureVowel).
Proof.
  intros s Hwf. destruct ensureVowel.
  - destruct (forLanguage (vowelTables s) language) as [lv|] eqn:Hv.
    + destruct (forLanguage (freqTables s) language) as [f|] eqn:Hf.
      * rewrite (getRandomLetter_vowel s language f lv Hwf Hf Hv). simpl.
        eapply extends_trans; [apply extends_alloc | apply extends_tick].
      * rewrite (getRandomLetter_no_table s language lv Hf Hv).
        destruct lv; simpl.
        -- eapply extends_trans; [apply extends_alloc | apply extends_tick].
        -- apply extends_alloc.
    + rewrite (getRandomLetter_no_vowels s language Hv). apply extends_alloc.
  - rewrite getRandomLetter_general. apply extends_tick.
Qed.

Lemma framed_isSpecial (letterFrequencies : object loc)
    (language char : jstring) :
  framed (isSpecial letterFrequencies language char).
Proof.
  unfold isSpecial. destruct (1 <? length char)%nat.
  - apply framed_ret.
  - apply framed_bind; [apply framed_getNumber | intros w; apply framed_ret].
Qed.

Lemma framed_specialLettersOf (letterFrequencies : object loc)
    (language : jstring) (otherLang : jsval) :
  framed (specialLettersOf letterFrequencies language otherLang).
Proof.
  unfold specialLettersOf.
  apply framed_bind; [apply framed_Object_keys | intros chars].
  apply framed_filterM. intros char. apply framed_isSpecial.
Qed.

Lemma framed_substituteSpecial (language : jstring) (p : Q) (letter : jsval) :
  framed (substituteSpecial language p letter).
Proof.
  unfold substituteSpecial.
  apply framed_bind; [apply framed_Math_random | intros r].
  destruct (Qlt_bool r p); [|apply framed_ret].
  apply framed_bind; [apply framed_read_letterFrequencies | intros lf].
  destruct (0 <? length (otherLanguages lf language))%nat; [|apply framed_ret].
  apply framed_bind; [apply framed_Math_random | intros r1].
  apply framed_bind; [apply framed_specialLettersOf | intros specials].
  destruct (0 <? length specials)%nat; [|apply framed_ret].
  apply framed_bind; [apply framed_Math_random | intros r2].
  apply framed_ret.
Qed.

Lemma framed_baseLetter (language : jstring) (p : Q) :
  framed (baseLetter language p).
Proof.
  unfold baseLetter.
  apply framed_bind; [apply framed_Math_random | intros r].
  apply framed_getRandomLetter.
Qed.

Lemma framed_generateCell (language : jstring) (vp sp : Q) :
  framed (generateCell language vp sp).
Proof.
  unfold generateCell.
  apply framed_bind; [apply framed_baseLetter | intros letter].
  apply framed_substituteSpecial.
Qed.

Lemma framed_generateBoard (rows cols : Z) (options : Options) :
  framed (generateBoard rows cols options).
Proof.
  unfold generateBoard. apply framed_forPush, framed_forPush.
  apply framed_generateCell.
Qed.

Lemma framed_generateDailyPuzzle (today : Date) :
  framed (generateDailyPuzzle today).
Proof.
  unfold generateDailyPuzzle.
  apply framed_bind; [apply framed_set_seedrandom | intros _].
  apply framed_generateBoard.
Qed.

Lemma framed_getLetterPoints (letter : jstring) (language : option jstring) :
  framed (getLetterPoints letter language).
Proof.
  unfold getLetterPoints.
  destruct (_ || _); apply framed_ret.
Qed.

(* ================================================================== *)
(** * Letter scoring *)
(* ================================================================== *)

Lemma commonScoring_truthy (letter : jstring) (points : Z) :
  getProp commonScoring letter = Some points -> (0 < points)%Z.
Proof.
  intros H. apply getProp_Some_In in H.
  assert (Hall : Forall (fun p => (0 < snd p)%Z) commonScoring)
    by (repeat constructor).
  rewrite Forall_forall in Hall. exact (Hall _ H).
Qed.

(** C7: getLetterPoints returns 8 for a letter longer than one character
    or absent from the scoring table and the table's value otherwise;
    Q scores 10, N-tilde 8 and the at sign 8; every result is a positive
    integer. *)
Theorem getLetterPoints_spec :
  (forall letter language s,
     getLetterPoints letter language s = (Ok (pointsSpec letter), s) /\
     (0 < pointsSpec letter)%Z) /\
  (forall s, getLetterPoints (lit "Q") (Some (lit "en")) s = (Ok 10%Z, s)) /\
  (forall s, getLetterPoints N_tilde (Some (lit "es")) s = (Ok 8%Z, s)) /\
  (forall s, getLetterPoints (lit "@") (Some (lit "en")) s = (Ok 8%Z, s)).
Proof.
  split; [|repeat split; reflexivity].
  intros letter language s. unfold getLetterPoints, pointsSpec.
  destruct (getProp commonScoring letter) as [points|] eqn:E.
  - pose proof (commonScoring_truthy letter points E) as Hpos.
    assert (E0 : (points =? 0)%Z = false) by (apply Z.eqb_neq; lia).
    unfold orTwo, truthyZ. rewrite E0.
    destruct (1 <? length letter)%nat; cbn [orb negb]; split;
      try reflexivity; lia.
  - unfold truthyZ. rewrite orb_true_r.
    destruct (1 <? length letter)%nat; split; try reflexivity; lia.
Qed.

(** C8: the score of a letter does not depend on the language code,
    given, unknown or omitted. *)
Theorem getLetterPoints_language_invariant :
  forall (letter : jstring) (l1 l2 : option jstring) (s : store),
    getLetterPoints letter l1 s = getLetterPoints letter l2 s.
Proof. intros letter l1 l2 s. reflexivity. Qed.

(* ================================================================== *)
(** * Degenerate dimensions *)
(* ================================================================== *)

Lemma forPush_ret {A} (x : A) (n : nat) :
  forall (acc : list A) (s : store),
    forPush n (ret x) acc s = (Ok (acc ++ repeat x n), s).
Proof.
  induction n as [|n IH]; intros acc s; simpl.
  - now rewrite app_nil_r.
  - unfold bind, ret at 1. rewrite IH. now rewrite <- app_assoc.
Qed.

(** C10: with [rows] zero or negative generateBoard returns the empty
    board, and with positive [rows] and [cols] zero or negative it
    returns [rows] empty rows; in both cases without an error and
    without touching the store. *)
Theorem generateBoard_degenerate_dimensions :
  forall (rows cols : Z) (options : Options) (s : store),
    ((rows <= 0)%Z ->
       generateBoard rows cols options s = (Ok [], s)) /\
    ((0 < rows)%Z -> (cols <= 0)%Z ->
       generateBoard rows cols options s
       = (Ok (repeat [] (Z.to_nat rows)), s)).
Proof.
  intros rows cols options s. unfold generateBoard. split.
  - intros Hr. replace (Z.to_nat rows) with 0%nat by lia. reflexivity.
  - intros _ Hc. replace (Z.to_nat cols) with 0%nat by lia.
    cbn [forPush]. exact (forPush_ret [] (Z.to_nat rows) [] s).
Qed.

Lemma generateBoard_degenerate_dimensions_witness :
  generateBoard (-1) 6 noOptions (initialStore (fun _ => 0.5))
  = (Ok [], initialStore (fun _ => 0.5)) /\
  generateBoard 3 0 noOptions (initialStore (fun _ => 0.5))
  = (Ok [[]; []; []], initialStore (fun _ => 0.5)).
Proof.
  split.
  - refine (proj1 (generateBoard_degenerate_dimensions (-1) 6 noOptions
                     (initialStore (fun _ => 0.5))) _). lia.
  - refine (proj2 (generateBoard_degenerate_dimensions 3 0 noOptions
                     (initialStore (fun _ => 0.5))) _ _); lia.
Defined.

(* ================================================================== *)
(** * What a call leaves as it was *)
(* ================================================================== *)

Lemma extends_tablesUnchanged (s s' : store) :
  wfStore s -> extends s s' -> tablesUnchanged s s'.
Proof.
  intros Hwf Hext. pose proof Hext as (_ & F & V & _).
  repeat split; try assumption.
  - now apply extends_tableView.
  - intros l Hl. now apply extends_objAt.
Qed.

Lemma wfStore_initialStore (randomValues : nat -> Q) :
  wfStore (initialStore randomValues).
Proof. unfold wfStore. repeat constructor. Qed.

(* ================================================================== *)
(** * The daily puzzle and the date seed *)
(* ================================================================== *)

Lemma seedBlind_ret {A} (a : A) : seedBlind (ret a).
Proof. intros s seed. reflexivity. Qed.

Lemma seedBlind_throw {A} (e : error) : seedBlind (@throw A e).
Proof. intros s seed. reflexivity. Qed.

Lemma seedBlind_bind {A B} (m : M A) (f : A -> M B) :
  seedBlind m -> (forall a, seedBlind (f a)) -> seedBlind (bind m f).
Proof.
  intros Hm Hf s seed. unfold bind. rewrite Hm.
  destruct (m s) as [[a | e] s1]; simpl; [apply Hf | reflexivity].
Qed.

Lemma seedBlind_Math_random : seedBlind Math_random.
Proof. intros s seed. reflexivity. Qed.

Lemma seedBlind_read_letterFrequencies : seedBlind read_letterFrequencies.
Proof. intros s seed. reflexivity. Qed.

Lemma seedBlind_read_vowels : seedBlind read_vowels.
Proof. intros s seed. reflexivity. Qed.

Lemma seedBlind_newObject : seedBlind newObject.
Proof. intros s seed. reflexivity. Qed.

Lemma seedBlind_getNumber (o : option loc) (k : jstring) :
  seedBlind (getNumber o k).
Proof. intros s seed. destruct o; reflexivity. Qed.

Lemma seedBlind_setNumber (l : loc) (k : jstring) (v : Q) :
  seedBlind (setNumber l k v).
Proof. intros s seed. reflexivity. Qed.

Lemma seedBlind_forInKeys (o : option loc) : seedBlind (forInKeys o).
Proof. intros s seed. destruct o; reflexivity. Qed.

Lemma seedBlind_Object_keys (o : option loc) : seedBlind (Object_keys o).
Proof. intros s seed. destruct o; reflexivity. Qed.

Lemma seedBlind_foldM {A St} (body : St -> A -> M St) :
  (forall acc x, seedBlind (body acc x)) ->
  forall arr acc, seedBlind (foldM body arr acc).
Proof.
  intros Hb. induction arr as [|x rest IH]; intros acc; simpl.
  - apply seedBlind_ret.
  - apply seedBlind_bind; [apply Hb | intros acc'; apply IH].
Qed.

Lemma seedBlind_forPush {A} (body : M A) :
  seedBlind body -> forall n acc, seedBlind (forPush n body acc).
Proof.
  intros Hb. induction n as [|n IH]; intros acc; simpl.
  - apply seedBlind_ret.
  - apply seedBlind_bind; [assumption | intros x; apply IH].
Qed.

Lemma seedBlind_filterM {A} (p : A -> M bool) :
  (forall x, seedBlind (p x)) -> forall arr, seedBlind (filterM p arr).
Proof.
  intros Hp. induction arr as [|x rest IH]; simpl.
  - apply seedBlind_ret.
  - apply seedBlind_bind; [apply Hp | intros keep].
    apply seedBlind_bind; [apply IH | intros rest']. apply seedBlind_ret.
Qed.

Lemma seedBlind_walk (obj : option loc) (random : Q) :
  forall letters c, seedBlind (walk obj random letters c).
Proof.
  induction letters as [|letter rest IH]; intros c; simpl.
  - apply seedBlind_ret.
  - apply seedBlind_bind; [apply seedBlind_getNumber | intros w].
    destruct (Qle_bool random (c + num w)); [apply seedBlind_ret | apply IH].
Qed.

Ltac seed_blind :=
  repeat first
    [ apply seedBlind_ret | apply seedBlind_throw
    | apply seedBlind_Math_random | apply seedBlind_newObject
    | apply seedBlind_read_letterFrequencies | apply seedBlind_read_vowels
    | apply seedBlind_getNumber | apply seedBlind_setNumber
    | apply seedBlind_forInKeys | apply seedBlind_Object_keys
    | apply seedBlind_walk
    | apply seedBlind_foldM; intros
    | apply seedBlind_filterM; intros
    | apply seedBlind_forPush
    | apply seedBlind_bind; [|intros]
    | match goal with
      | |- seedBlind (if ?b then _ else _) => destruct b
      | |- seedBlind (match ?x with _ => _ end) => destruct x
      end ].

Lemma seedBlind_getRandomLetter (language : jstring) (ensureVowel : bool) :
  seedBlind (getRandomLetter language ensureVowel).
Proof. unfold getRandomLetter, extractVowel, normalizeVowel. seed_blind. Qed.

Lemma seedBlind_substituteSpecial (language : jstring) (p : Q)
    (letter : jsval) :
  seedBlind (substituteSpecial language p letter).
Proof.
  unfold substituteSpecial, specialLettersOf, isSpecial. seed_blind.
Qed.

Lemma seedBlind_generateCell (language : jstring) (vp sp : Q) :
  seedBlind (generateCell language vp sp).
Proof.
  unfold generateCell, baseLetter.
  apply seedBlind_bind.
  - apply seedBlind_bind; [apply seedBlind_Math_random | intros r].
    apply seedBlind_getRandomLetter.
  - intros letter. apply seedBlind_substituteSpecial.
Qed.

Lemma seedBlind_generateBoard (rows cols : Z) (options : Options) :
  seedBlind (generateBoard rows cols options).
Proof.
  unfold generateBoard.
  apply seedBlind_forPush, seedBlind_forPush, seedBlind_generateCell.
Qed.

(** The board of the daily puzzle is the board generateBoard returns
    with the options of the daily puzzle: the date has no part in it. *)
Lemma generateDailyPuzzle_ignores_date (today : Date) (s : store) :
  fst (generateDailyPuzzle today s) = fst (generateBoard 6 6 dailyOptions s).
Proof.
  unfold generateDailyPuzzle, bind, set_seedrandom.
  fold dailyOptions. now rewrite seedBlind_generateBoard.
Qed.

(** C1 (fails on the code): two calls of generateDailyPuzzle on the same
    date return different boards.  Both calls compute the seed 20240115
    and store it in [Math.seedrandom]; the draws come from
    [Math.random()], which does not read it, so the second call goes on
    in the sequence of draws where the first one stopped.  On one store
    the board is the same for every date. *)
Theorem generateDailyPuzzle_same_date_differs :
  (let today := mkDate 2024 0 15 in
   let first := generateDailyPuzzle today (initialStore drawsOfADay) in
   let second := generateDailyPuzzle today (snd first) in
   dateSeed today = 20240115%Z /\
   seedrandom (snd first) = Some 20240115%Z /\
   seedrandom (snd second) = Some 20240115%Z /\
   fst first = Ok (uniformBoard 6 6 (lit "L")) /\
   fst second = Ok (uniformBoard 6 6 (lit "T")) /\
   fst first <> fst second) /\
  (forall (d1 d2 : Date) (s : store),
     fst (generateDailyPuzzle d1 s) = fst (generateDailyPuzzle d2 s)).
Proof.
  split.
  - vm_compute. repeat split. discriminate.
  - intros d1 d2 s. now rewrite !generateDailyPuzzle_ignores_date.
Qed.

(* ================================================================== *)
(** * Unknown language codes *)
(* ================================================================== *)

(** C2 (fails on the code): generateBoard throws for the unknown
    language code ['de'].  getRandomLetter falls back to the English
    table, but the filter of line 132 reads
    [letterFrequencies[language][char]] without a fallback: once a draw
    selects the substitution step the call raises a TypeError, here with
    [specialLetterProbability] 1 and with the default 0.15. *)
Theorem generateBoard_unknown_language_throws :
  fst (getRandomLetter (lit "de") false (initialStore (fun _ => 0.5)))
  = Ok (Str (lit "L")) /\
  fst (generateBoard 1 1 (mkOptions (Some (lit "de")) None (Some 1))
         (initialStore (fun _ => 0.5)))
  = Throw TypeError /\
  fst (generateBoard 1 1 (mkOptions (Some (lit "de")) None None)
         (initialStore (fun _ => 0.1)))
  = Throw TypeError.
Proof.
  vm_compute. repeat split.
Qed.

(* ================================================================== *)
(** * Where the sampled letters come from *)
(* ================================================================== *)

Lemma walkObj_In (freq : object Q) (random : Q) :
  forall (letters : list jstring) (c : Q) (letter : jstring),
    walkObj freq random letters c = Some letter -> In letter letters.
Proof.
  induction letters as [|l rest IH]; intros c letter; simpl; [discriminate|].
  destruct (Qle_bool random (c + num (getProp freq l))).
  - intros [= <-]. now left.
  - intros H. right. eapply IH, H.
Qed.

Lemma keys_extractVowels (freq : object Q) :
  forall (langVowels : list jstring) (vowelFreq : object Q) (t : Q)
         (k : jstring),
    In k (keys (fst (extractVowels freq langVowels vowelFreq t))) ->
    In k (keys vowelFreq) \/ In k langVowels.
Proof.
  induction langVowels as [|v rest IH]; intros vowelFreq t k; simpl;
    [tauto|].
  destruct (truthy (getProp freq v)).
  - intros H. apply IH in H as [H | H]; [|tauto].
    apply keys_setProp_incl in H as [-> | H]; tauto.
  - intros H. apply IH in H. tauto.
Qed.

Lemma keys_normalizeKeys (t : Q) :
  forall (ks : list jstring) (o : object Q),
    (forall k, In k ks -> In k (keys o)) ->
    keys (normalizeKeys t ks o) = keys o.
Proof.
  induction ks as [|k ks IH]; intros o Hin; simpl; [reflexivity|].
  unfold normalizeKeys in *. simpl.
  assert (Hk : keys (setProp o k (num (getProp o k) / t)) = keys o)
    by (apply keys_setProp_old, Hin; now left).
  rewrite IH; [exact Hk|].
  intros k' Hk'. rewrite Hk. apply Hin. now right.
Qed.

Lemma keys_vowelWeights (freq : object Q) (langVowels : list jstring)
    (k : jstring) :
  In k (keys (vowelWeights freq langVowels)) -> In k langVowels.
Proof.
  unfold vowelWeights. rewrite keys_normalizeKeys by auto.
  intros H. apply keys_extractVowels in H as [[] | H]. exact H.
Qed.

Lemma pickVowel_among (freq : object Q) (langVowels : list jstring) (r : Q) :
  langVowels <> [] -> letterAmong langVowels (pickVowel freq langVowels r).
Proof.
  intros Hne. unfold pickVowel.
  destruct (walkObj _ r _ 0) as [letter|] eqn:E.
  - exists letter. split; [reflexivity|].
    apply walkObj_In in E. now apply keys_vowelWeights in E.
  - destruct langVowels as [|v rest]; [congruence|].
    exists v. split; [reflexivity | now left].
Qed.

Lemma pickGeneral_among (freq : object Q) (r : Q) :
  letterAmong (lit "E" :: keys freq) (pickGeneral freq r).
Proof.
  unfold pickGeneral.
  destruct (walkObj _ _ _ 0) as [letter|] eqn:E.
  - exists letter. split; [reflexivity|]. right. eapply walkObj_In, E.
  - exists (lit "E"). split; [reflexivity | now left].
Qed.

(* ================================================================== *)
(** * Array indices drawn from the random source *)
(* ================================================================== *)

Lemma floorIndex_range (r : Q) (len : nat) :
  0 <= r -> r < 1 -> (0 < len)%nat ->
  (0 <= floorIndex r len < Z.of_nat len)%Z.
Proof.
  intros H0 H1 Hlen. unfold floorIndex.
  set (n := inject_Z (Z.of_nat len)).
  assert (Hn : inject_Z 0 < n) by (unfold n; rewrite <- Zlt_Qlt; lia).
  change (inject_Z 0) with 0 in Hn.
  split.
  - rewrite <- (Qfloor_Z 0). apply Qfloor_resp_le.
    change (inject_Z 0) with 0. apply Qmult_le_0_compat; [assumption|].
    now apply Qlt_le_weak.
  - rewrite Zlt_Qlt. fold n.
    apply Qle_lt_trans with (r * n); [apply Qfloor_le|].
    rewrite <- (Qmult_1_l n) at 2. apply Qmult_lt_compat_r; assumption.
Qed.

Lemma at_index_floorIndex {A} (arr : list A) (r : Q) :
  0 <= r -> r < 1 -> arr <> [] ->
  exists x, at_index arr (floorIndex r (length arr)) = Some x /\ In x arr.
Proof.
  intros H0 H1 Hne.
  assert (Hlen : (0 < length arr)%nat)
    by (destruct arr; [congruence | simpl; lia]).
  pose proof (floorIndex_range r (length arr) H0 H1 Hlen) as [Hlo Hhi].
  unfold at_index.
  destruct (floorIndex r (length arr) <? 0)%Z eqn:E;
    [apply Z.ltb_lt in E; lia|].
  destruct (nth_error arr (Z.to_nat (floorIndex r (length arr))))
    as [x|] eqn:Ex.
  - exists x. split; [reflexivity|]. eapply nth_error_In, Ex.
  - apply nth_error_None in Ex. lia.
Qed.

(* ================================================================== *)
(** * Calls that return *)
(* ================================================================== *)

Lemma returns_ret {A} (I : store -> Prop) (a : A) (P : A -> Prop) :
  P a -> returns I (ret a) P.
Proof. intros HP s Hs. now exists a, s. Qed.

Lemma returns_bind {A B} (I : store -> Prop) (m : M A) (f : A -> M B)
    (P : A -> Prop) (Q : B -> Prop) :
  returns I m P -> (forall a, P a -> returns I (f a) Q) ->
  returns I (bind m f) Q.
Proof.
  intros Hm Hf s Hs.
  destruct (Hm s Hs) as (a & s1 & E1 & Pa & Hs1).
  destruct (Hf a Pa s1 Hs1) as (b & s2 & E2 & Qb & Hs2).
  exists b, s2. unfold bind. rewrite E1. auto.
Qed.

Lemma returns_weaken {A} (I : store -> Prop) (m : M A) (P P' : A -> Prop) :
  returns I m P -> (forall a, P a -> P' a) -> returns I m P'.
Proof.
  intros Hm HP s Hs. destruct (Hm s Hs) as (a & s' & E & Pa & Hs').
  exists a, s'. auto.
Qed.

(** A loop that pushes [n] values pushes exactly [n], each as the body
    returns them. *)
Lemma returns_forPush {A} (I : store -> Prop) (body : M A) (P : A -> Prop) :
  returns I body P ->
  forall (n : nat) (acc : list A),
    Forall P acc ->
    returns I (forPush n body acc)
      (fun l => length l = (length acc + n)%nat /\ Forall P l).
Proof.
  intros Hb. induction n as [|n IH]; intros acc Hacc; simpl.
  - apply returns_ret. split; [lia | assumption].
  - eapply returns_bind; [exact Hb|]. intros x Px.
    eapply returns_weaken.
    + apply IH. apply Forall_app. split; [assumption | now constructor].
    + intros l [Hl HP]. rewrite length_app in Hl. simpl in Hl.
      split; [lia | assumption].
Qed.

Lemma moduleStore_extends (s s' : store) :
  moduleStore s -> extends s s' -> moduleStore s'.
Proof.
  intros [(Hwf & Hview & Hvow) Hr] Hext.
  pose proof Hext as (_ & _ & V & R & _).
  repeat split.
  - eapply extends_wfStore; eauto.
  - rewrite <- Hview. now apply extends_tableView.
  - congruence.
  - rewrite R. apply Hr.
  - rewrite R. apply Hr.
Qed.

Lemma moduleStore_tick (s : store) : moduleStore s -> moduleStore (tick s).
Proof. intros H. eapply moduleStore_extends; [exact H | apply extends_tick]. Qed.

Lemma moduleStore_initialStore (randomValues : nat -> Q) :
  (forall n, 0 <= randomValues n /\ randomValues n < 1) ->
  moduleStore (initialStore randomValues).
Proof.
  intros H. split; [|exact H].
  split; [apply wfStore_initialStore | split; reflexivity].
Qed.

Lemma returns_Math_random :
  returns moduleStore Math_random (fun r => 0 <= r /\ r < 1).
Proof.
  intros s Hs. exists (randomValues s (randomCalls s)), (tick s).
  split; [reflexivity|]. split; [apply Hs | now apply moduleStore_tick].
Qed.

(* ================================================================== *)
(** * The letters of the static tables *)
(* ================================================================== *)

Lemma letterFrequencies_forLanguage (language : jstring) :
  exists lang table,
    forLanguage letterFrequencies language = Some table /\
    In (lang, table) letterFrequencies.
Proof.
  unfold forLanguage.
  destruct (getProp letterFrequencies language) as [table|] eqn:E.
  - exists language, table. split; [reflexivity|].
    now apply getProp_Some_In.
  - eexists (lit "en"), _. split; [reflexivity | now left].
Qed.

Lemma vowels_forLanguage (language : jstring) :
  exists lang langVowels,
    forLanguage vowels language = Some langVowels /\
    In (lang, langVowels) vowels.
Proof.
  unfold forLanguage.
  destruct (getProp vowels language) as [lv|] eqn:E.
  - exists language, lv. split; [reflexivity|]. now apply getProp_Some_In.
  - eexists (lit "en"), _. split; [reflexivity | now left].
Qed.

Lemma letterFrequencies_keys_nonempty (lang : jstring) (table : object Q)
    (k : jstring) :
  In (lang, table) letterFrequencies -> In k (keys table) -> k <> [].
Proof.
  assert (Hall : forallb (fun p => forallb (fun k => negb (str_eqb k []))
                                     (keys (snd p)))
                   letterFrequencies = true) by reflexivity.
  rewrite forallb_forall in Hall. intros Hin Hk.
  specialize (Hall _ Hin). simpl in Hall.
  rewrite forallb_forall in Hall. specialize (Hall _ Hk).
  intros ->. discriminate.
Qed.

Lemma vowels_nonempty (lang : jstring) (langVowels : list jstring) :
  In (lang, langVowels) vowels ->
  langVowels <> [] /\ forall k, In k langVowels -> k <> [].
Proof.
  assert (Hall : forallb (fun p => negb (length (snd p) =? 0)%nat &&
                                   forallb (fun k => negb (str_eqb k []))
                                     (snd p))
                   vowels = true) by reflexivity.
  rewrite forallb_forall in Hall. intros Hin.
  specialize (Hall _ Hin). simpl in Hall.
  apply andb_prop in Hall as [Hlen Hk]. split.
  - intros ->. discriminate.
  - rewrite forallb_forall in Hk. intros k Hin' ->.
    specialize (Hk _ Hin'). discriminate.
Qed.

(** On the tables of the module the table of a language, or the English
    one, is found through its reference. *)
Lemma staticTables_forLanguage (s : store) (language : jstring) :
  staticTables s ->
  exists f table,
    forLanguage (freqTables s) language = Some f /\
    objAt (heap s) f = table /\
    forLanguage letterFrequencies language = Some table.
Proof.
  intros (Hwf & Hview & Hvow).
  destruct (letterFrequencies_forLanguage language) as (lang & table & E & _).
  pose proof (forLanguage_tableView s language) as H.
  rewrite Hview, E in H.
  destruct (forLanguage (freqTables s) language) as [f|]; [|discriminate].
  simpl in H. injection H as H. now exists f, table.
Qed.

(** getRandomLetter on the tables of the module returns, for every
    language code, a vowel of the language's list when a vowel is asked
    for and else a key of its table or E. *)
Lemma returns_getRandomLetter (language : jstring) (ensureVowel : bool) :
  returns moduleStore (getRandomLetter language ensureVowel)
    (fun v =>
       exists table langVowels,
         forLanguage letterFrequencies language = Some table /\
         forLanguage vowels language = Some langVowels /\
         if ensureVowel then letterAmong langVowels v
         else letterAmong (lit "E" :: keys table) v).
Proof.
  intros s Hs. pose proof Hs as [Hst Hr].
  destruct (staticTables_forLanguage s language Hst) as (f & table & Hf & Ht & E).
  destruct (vowels_forLanguage language) as (lang & lv & Ev & Hin).
  destruct Hst as (Hwf & Hview & Hvow).
  destruct ensureVowel.
  - assert (Hv : forLanguage (vowelTables s) language = Some lv)
      by (now rewrite Hvow).
    rewrite (getRandomLetter_vowel s language f lv Hwf Hf Hv).
    eexists _, _. split; [reflexivity|]. split.
    + exists table, lv. repeat split; try assumption. rewrite Ht.
      apply pickVowel_among. now apply (vowels_nonempty lang lv).
    + eapply moduleStore_extends; [exact Hs|].
      eapply extends_trans; [apply extends_alloc | apply extends_tick].
  - rewrite getRandomLetter_general.
    eexists _, _. split; [reflexivity|]. split.
    + exists table, lv. repeat split; try assumption.
      rewrite Hview, E. apply pickGeneral_among.
    + now apply moduleStore_tick.
Qed.

Lemma getRandomLetter_nonEmptyString (language : jstring) (ensureVowel : bool) :
  returns moduleStore (getRandomLetter language ensureVowel) nonEmptyString.
Proof.
  eapply returns_weaken; [apply returns_getRandomLetter|].
  intros v (table & lv & E & Ev & Hv).
  destruct ensureVowel; destruct Hv as (letter & -> & Hin);
    exists letter; (split; [reflexivity|]).
  - destruct (vowels_forLanguage language) as (lang & lv' & Ev' & Hin').
    rewrite Ev in Ev'. injection Ev' as <-.
    eapply vowels_nonempty; eauto.
  - destruct Hin as [<- | Hin]; [discriminate|].
    destruct (letterFrequencies_forLanguage language) as (lang & t & E' & Hin').
    rewrite E in E'. injection E' as <-.
    eapply letterFrequencies_keys_nonempty; eauto.
Qed.

(* ================================================================== *)
(** * The substitution step on a store *)
(* ================================================================== *)

Lemma filterM_pure {A} (p : A -> M bool) (q : A -> bool) (s : store) :
  (forall x, p x s = (Ok (q x), s)) ->
  forall arr, filterM p arr s = (Ok (filter q arr), s).
Proof.
  intros Hp. induction arr as [|x rest IH]; simpl; [reflexivity|].
  unfold bind at 1. rewrite Hp. unfold bind, ret. rewrite IH. reflexivity.
Qed.

Lemma isSpecial_run (letterFrequencies : object loc) (language char : jstring)
    (fl : loc) (s : store) :
  getProp letterFrequencies language = Some fl ->
  isSpecial letterFrequencies language char s
  = (Ok ((1 <? length char)%nat
         || negb (truthy (getProp (objAt (heap s) fl) char))), s).
Proof.
  intros H. unfold isSpecial. rewrite H.
  destruct (1 <? length char)%nat; reflexivity.
Qed.

Lemma specialLettersOf_run (letterFrequencies : object loc)
    (language other : jstring) (fl fo : loc) (s : store) :
  getProp letterFrequencies language = Some fl ->
  getProp letterFrequencies other = Some fo ->
  specialLettersOf letterFrequencies language (Str other) s
  = (Ok (specialLetters (objAt (heap s) fl) (objAt (heap s) fo)), s).
Proof.
  intros Hl Ho. unfold specialLettersOf. simpl. rewrite Ho.
  unfold bind, Object_keys.
  apply filterM_pure. intros char. now apply isSpecial_run.
Qed.

Lemma Qlt_bool_true (x y : Q) : x < y -> Qlt_bool x y = true.
Proof.
  intros H. unfold Qlt_bool. destruct (Qle_bool y x) eqn:E; [|reflexivity].
  apply Qle_bool_imp_le in E. exfalso. eapply Qlt_not_le; eauto.
Qed.

Lemma Qlt_bool_false (x y : Q) : y <= x -> Qlt_bool x y = false.
Proof.
  intros H. unfold Qlt_bool. apply Qle_bool_iff in H. now rewrite H.
Qed.

Lemma otherLanguages_In (letterFrequencies : object loc)
    (language other : jstring) :
  In other (otherLanguages letterFrequencies language) ->
  In other (keys letterFrequencies).
Proof. unfold otherLanguages. intros H. now apply filter_In in H. Qed.

Lemma staticTables_getProp (s : store) (lang : jstring) :
  staticTables s -> In lang (keys (freqTables s)) ->
  exists f, getProp (freqTables s) lang = Some f /\
            In (lang, objAt (heap s) f) letterFrequencies.
Proof.
  intros (Hwf & Hview & Hvow) Hin.
  destruct (key_getProp (freqTables s) lang Hin) as [f Hf].
  exists f. split; [assumption|].
  rewrite <- Hview. apply getProp_Some_In.
  rewrite getProp_tableView, Hf. reflexivity.
Qed.

(** For a language that has a table, the substitution step on the tables
    of the module returns the base letter or a key of another table. *)
Lemma returns_substituteSpecial (language : jstring) (p : Q) (letter : jsval) :
  In language (keys letterFrequencies) ->
  nonEmptyString letter ->
  returns moduleStore (substituteSpecial language p letter) nonEmptyString.
Proof.
  intros Hlang Hletter s Hs. pose proof Hs as [Hst Hr].
  assert (Hkeys : keys (freqTables s) = keys letterFrequencies).
  { destruct Hst as (_ & Hview & _). now rewrite <- keys_tableView, Hview. }
  unfold substituteSpecial.
  unfold bind at 1, Math_random.
  destruct (Qlt_bool _ p).
  2:{ exists letter, (tick s). split; [reflexivity|].
      split; [assumption | now apply moduleStore_tick]. }
  unfold bind at 1, read_letterFrequencies. cbn [freqTables tick].
  set (languages := otherLanguages (freqTables s) language).
  destruct (0 <? length languages)%nat eqn:Elen.
  2:{ exists letter, (tick s). split; [reflexivity|].
      split; [assumption | now apply moduleStore_tick]. }
  unfold bind at 1. cbn [randomValues randomCalls tick].
  destruct (at_index_floorIndex languages (randomValues s (S (randomCalls s))))
    as (other & Eo & Hin).
  { apply Hr. } { apply Hr. }
  { intros E. rewrite E in Elen. discriminate. }
  rewrite Eo. cbn [elem].
  rewrite <- Hkeys in Hlang.
  destruct (staticTables_getProp s language Hst Hlang) as (fl & Hfl & _).
  destruct (staticTables_getProp s other Hst (otherLanguages_In _ _ _ Hin))
    as (fo & Hfo & Hto).
  erewrite bind_Ok by (apply specialLettersOf_run; eassumption).
  cbn [heap tick].
  set (specials := specialLetters (objAt (heap s) fl) (objAt (heap s) fo)).
  destruct (0 <? length specials)%nat eqn:Esp.
  2:{ exists letter, (tick (tick s)). split; [reflexivity|].
      split; [assumption | now apply moduleStore_tick, moduleStore_tick]. }
  unfold bind, Math_random, ret. cbn [randomValues randomCalls tick].
  destruct (at_index_floorIndex specials
              (randomValues s (S (S (randomCalls s)))))
    as (x & Ex & Hx).
  { apply Hr. } { apply Hr. }
  { intros E. rewrite E in Esp. discriminate. }
  rewrite Ex. cbn [elem].
  eexists _, _. split; [reflexivity|]. split.
  - exists x. split; [reflexivity|].
    unfold specials, specialLetters in Hx. apply filter_In in Hx as [Hx _].
    eapply letterFrequencies_keys_nonempty; eauto.
  - now apply moduleStore_tick, moduleStore_tick, moduleStore_tick.
Qed.

Lemma returns_baseLetter (language : jstring) (p : Q) :
  returns moduleStore (baseLetter language p) nonEmptyString.
Proof.
  unfold baseLetter. eapply returns_bind; [apply returns_Math_random|].
  intros r _. apply getRandomLetter_nonEmptyString.
Qed.

Lemma returns_generateCell (language : jstring) (vp sp : Q) :
  In language (keys letterFrequencies) ->
  returns moduleStore (generateCell language vp sp) nonEmptyString.
Proof.
  intros Hlang. unfold generateCell.
  eapply returns_bind; [apply returns_baseLetter|].
  intros letter Hletter. now apply returns_substituteSpecial.
Qed.

(* ================================================================== *)
(** * The shape of the board *)
(* ================================================================== *)

(** C3: for positive [r] and [c] and a language that has a table,
    generateBoard returns [r] rows of [c] cells each and every cell is a
    non-empty string, whatever the two probabilities and the values of
    the random source in [0, 1). *)
Theorem generateBoard_shape :
  forall (r c : Z) (options : Options) (s : store),
    (0 < r)%Z -> (0 < c)%Z ->
    In (withDefault (lit "en") (language options)) (keys letterFrequencies) ->
    moduleStore s ->
    exists board s',
      generateBoard r c options s = (Ok board, s') /\
      Z.of_nat (length board) = r /\
      Forall (fun row => Z.of_nat (length row) = c /\
                         Forall nonEmptyString row) board.
Proof.
  intros r c options s Hr Hc Hlang Hs. unfold generateBoard.
  pose proof (returns_forPush moduleStore _ _
                (returns_generateCell _
                   (withDefault 0.35 (vowelProbability options))
                   (withDefault 0.15 (specialLetterProbability options))
                   Hlang)
                (Z.to_nat c) [] (Forall_nil _)) as Hrow.
  pose proof (returns_forPush moduleStore _ _ Hrow (Z.to_nat r) []
                (Forall_nil _) s Hs) as (board & s' & E & [Hlen Hall] & _).
  exists board, s'. split; [exact E|]. split; [simpl in Hlen; lia|].
  eapply Forall_impl; [|exact Hall].
  intros row [Hl HP]. simpl in Hl. split; [lia | assumption].
Qed.

Lemma generateBoard_shape_witness :
  exists board s',
    generateBoard 6 10 (mkOptions (Some (lit "fr")) None None)
      (initialStore (fun _ => 0.5)) = (Ok board, s') /\
    Z.of_nat (length board) = 6%Z /\
    Forall (fun row => Z.of_nat (length row) = 10%Z /\
                       Forall nonEmptyString row) board.
Proof.
  refine (generateBoard_shape 6 10 (mkOptions (Some (lit "fr")) None None)
            (initialStore (fun _ => 0.5)) _ _ _ _).
  - lia.
  - lia.
  - simpl. tauto.
  - apply moduleStore_initialStore. intros n. split; [discriminate | reflexivity].
Defined.

(* ================================================================== *)
(** * Forced vowels *)
(* ================================================================== *)

Lemma returns_substituteSpecial_never (language : jstring) (p : Q)
    (letter : jsval) (P : jsval -> Prop) :
  p <= 0 -> P letter ->
  returns moduleStore (substituteSpecial language p letter) P.
Proof.
  intros Hp HP. unfold substituteSpecial.
  eapply returns_bind; [apply returns_Math_random|].
  intros r [H0 _]. rewrite Qlt_bool_false.
  - now apply returns_ret.
  - now apply Qle_trans with 0.
Qed.

Lemma returns_baseLetter_always_vowel (language : jstring) (p : Q) :
  1 <= p ->
  returns moduleStore (baseLetter language p)
    (fun v => exists langVowels,
                forLanguage vowels language = Some langVowels /\
                letterAmong langVowels v).
Proof.
  intros Hp. unfold baseLetter.
  eapply returns_bind; [apply returns_Math_random|].
  intros r [_ H1]. rewrite Qlt_bool_true.
  - eapply returns_weaken; [apply returns_getRandomLetter|].
    intros v (table & lv & _ & Ev & Hv). now exists lv.
  - now apply Qlt_le_trans with 1.
Qed.

(** C5: with English, [vowelProbability] 1.0 and
    [specialLetterProbability] 0.0, every cell of the board is one of
    A, E, I, O, U, Y, for every [rows] and [cols] and whatever values in
    [0, 1) the random source yields. *)
Theorem generateBoard_forced_vowels :
  forall (rows cols : Z) (s : store),
    moduleStore s ->
    exists board s',
      generateBoard rows cols
        (mkOptions (Some (lit "en")) (Some 1.0) (Some 0.0)) s
      = (Ok board, s') /\
      Forall (Forall (letterAmong englishVowels)) board.
Proof.
  intros rows cols s Hs. unfold generateBoard. cbn [withDefault language
    vowelProbability specialLetterProbability].
  assert (Hcell : returns moduleStore (generateCell (lit "en") 1.0 0.0)
                    (letterAmong englishVowels)).
  { unfold generateCell. eapply returns_bind.
    - apply returns_baseLetter_always_vowel. discriminate.
    - intros letter (lv & Ev & Hv).
      apply returns_substituteSpecial_never; [discriminate|].
      injection Ev as <-. exact Hv. }
  pose proof (returns_forPush moduleStore _ _ Hcell (Z.to_nat cols) []
                (Forall_nil _)) as Hrow.
  pose proof (returns_forPush moduleStore _ _ Hrow (Z.to_nat rows) []
                (Forall_nil _) s Hs) as (board & s' & E & [_ Hall] & _).
  exists board, s'. split; [exact E|].
  eapply Forall_impl; [|exact Hall]. now intros row [_ H].
Qed.

Lemma generateBoard_forced_vowels_witness :
  exists board s',
    generateBoard 6 6 (mkOptions (Some (lit "en")) (Some 1.0) (Some 0.0))
      (initialStore (fun _ => 0.5)) = (Ok board, s') /\
    Forall (Forall (letterAmong englishVowels)) board.
Proof.
  refine (generateBoard_forced_vowels 6 6 (initialStore (fun _ => 0.5)) _).
  apply moduleStore_initialStore. intros n. split; [discriminate | reflexivity].
Defined.

(* ================================================================== *)
(** * The empty substitution set *)
(* ================================================================== *)

Lemma filterM_store {A} (p : A -> M bool) :
  (forall x s, snd (p x s) = s) ->
  forall arr s, snd (filterM p arr s) = s.
Proof.
  intros Hp. induction arr as [|x rest IH]; intros s; simpl; [reflexivity|].
  unfold bind at 1. specialize (Hp x s).
  destruct (p x s) as [[keep | e] s1]; simpl in Hp; subst s1; [|reflexivity].
  unfold bind, ret. specialize (IH s).
  destruct (filterM p rest s) as [[rest' | e] s1]; simpl in IH; now subst s1.
Qed.

Lemma specialLettersOf_store (letterFrequencies : object loc)
    (language : jstring) (otherLang : jsval) (s : store) :
  snd (specialLettersOf letterFrequencies language otherLang s) = s.
Proof.
  unfold specialLettersOf, bind, Object_keys.
  destruct (getProp letterFrequencies (propertyKey otherLang)) as [fo|];
    [|reflexivity].
  apply filterM_store. intros char s0. unfold isSpecial.
  destruct (1 <? length char)%nat; [reflexivity|].
  unfold bind, getNumber.
  destruct (getProp letterFrequencies language); reflexivity.
Qed.

Lemma substituteSpecial_no_others (language : jstring) (p : Q)
    (letter : jsval) (s : store) :
  otherLanguages (freqTables s) language = [] ->
  substituteSpecial language p letter s = (Ok letter, tick s).
Proof.
  intros H. unfold substituteSpecial, bind at 1, Math_random.
  destruct (Qlt_bool _ p); [|reflexivity].
  unfold bind, read_letterFrequencies. cbn [freqTables tick].
  rewrite H. reflexivity.
Qed.

Lemma substituteSpecial_empty_set (language : jstring) (p : Q)
    (letter : jsval) (s : store) :
  chosenSpecialLetters language s = Ok [] ->
  fst (substituteSpecial language p letter s) = Ok letter.
Proof.
  unfold chosenSpecialLetters. intros H.
  unfold substituteSpecial, bind at 1, Math_random.
  destruct (Qlt_bool _ p); [|reflexivity].
  unfold bind at 1, read_letterFrequencies. cbn [freqTables tick].
  destruct (0 <? length (otherLanguages (freqTables s) language))%nat;
    [|reflexivity].
  unfold bind at 1. cbn [randomValues randomCalls tick].
  unfold bind at 1.
  pose proof (specialLettersOf_store (freqTables s) language
    (elem (at_index (otherLanguages (freqTables s) language)
       (floorIndex (randomValues s (S (randomCalls s)))
          (length (otherLanguages (freqTables s) language)))))
    (tick (tick s))) as Hst.
  destruct (specialLettersOf _ _ _ _) as [o s1]. simpl in H, Hst.
  subst o s1. reflexivity.
Qed.

Lemma framed_onlyLanguage {A} (m : M A) (language : jstring) (s : store) :
  framed m -> onlyLanguage language s -> onlyLanguage language (snd (m s)).
Proof.
  intros Hm [Hwf Hno]. pose proof (Hm s Hwf) as Hext. split.
  - eapply extends_wfStore; eauto.
  - destruct Hext as (_ & F & _). now rewrite F.
Qed.

(** Two bodies that agree on the stores of an invariant push the same
    values. *)
Lemma forPush_ext {A} (I : store -> Prop) (b1 b2 : M A) :
  (forall s, I s -> b1 s = b2 s) ->
  (forall s, I s -> I (snd (b1 s))) ->
  forall n acc s, I s -> forPush n b1 acc s = forPush n b2 acc s.
Proof.
  intros Heq Hpres. induction n as [|n IH]; intros acc s Hs; simpl;
    [reflexivity|].
  unfold bind. rewrite <- (Heq s Hs). specialize (Hpres s Hs).
  destruct (b1 s) as [[x | e] s1]; [|reflexivity].
  now apply IH.
Qed.

Lemma bind_ext_on {A B} (m : M A) (f g : A -> M B) (s : store) :
  (forall a s', m s = (Ok a, s') -> f a s' = g a s') ->
  bind m f s = bind m g s.
Proof.
  intros H. unfold bind. destruct (m s) as [[a | e] s']; auto.
Qed.

Lemma generateCell_no_others (language : jstring) (vp p : Q) (s : store) :
  onlyLanguage language s ->
  generateCell language vp p s = baseCell language vp s.
Proof.
  intros Hs. unfold generateCell, baseCell.
  apply bind_ext_on. intros letter s1 E.
  pose proof (framed_onlyLanguage (baseLetter language vp) language s
                (framed_baseLetter language vp) Hs) as [_ Hno].
  rewrite E in Hno. simpl in Hno.
  now rewrite substituteSpecial_no_others.
Qed.

Lemma generateBoard_given_options (rows cols : Z) (lang : jstring)
    (vp p : Q) :
  generateBoard rows cols (mkOptions (Some lang) (Some vp) (Some p))
  = forPush (Z.to_nat rows)
      (forPush (Z.to_nat cols) (generateCell lang vp p) []) [].
Proof. reflexivity. Qed.

(** C6: when the substitution set is empty the cell keeps the base
    letter of step 1: when no other language is configured, and when
    the other language the step selects has no special character.  In
    particular, with no other language configured, the board for any
    [specialLetterProbability], 1.0 included, is the board of the base
    letters. *)
Theorem empty_special_set_keeps_base_letter :
  (forall (language : jstring) (p : Q) (letter : jsval) (s : store),
     otherLanguages (freqTables s) language = [] \/
     chosenSpecialLetters language s = Ok [] ->
     fst (substituteSpecial language p letter s) = Ok letter) /\
  (forall (rows cols : Z) (language : jstring) (vp p : Q) (s : store),
     onlyLanguage language s ->
     generateBoard rows cols (mkOptions (Some language) (Some vp) (Some p)) s
     = baseBoard rows cols language vp s).
Proof.
  split.
  - intros language p letter s [H | H].
    + now rewrite substituteSpecial_no_others.
    + now apply substituteSpecial_empty_set.
  - intros rows cols language vp p s Hs.
    rewrite generateBoard_given_options. unfold baseBoard.
    apply (forPush_ext (onlyLanguage language)); [| |exact Hs].
    + intros s0 Hs0.
      apply (forPush_ext (onlyLanguage language)); [| |exact Hs0].
      * intros s1 Hs1. now apply generateCell_no_others.
      * intros s1 Hs1. apply framed_onlyLanguage; [|exact Hs1].
        apply framed_generateCell.
    + intros s0 Hs0. apply framed_onlyLanguage; [|exact Hs0].
      apply framed_forPush, framed_generateCell.
Qed.

Lemma empty_special_set_keeps_base_letter_witness :
  fst (substituteSpecial (lit "es") 1.0 (Str (lit "A"))
         (initialStore (fun _ => 0.25)))
  = Ok (Str (lit "A")) /\
  generateBoard 2 2 (mkOptions (Some (lit "en")) (Some 0.35) (Some 1.0))
    (englishOnlyStore (fun _ => 0.5))
  = baseBoard 2 2 (lit "en") 0.35 (englishOnlyStore (fun _ => 0.5)).
Proof.
  split.
  - refine (proj1 empty_special_set_keeps_base_letter (lit "es") 1.0
              (Str (lit "A")) (initialStore (fun _ => 0.25)) _).
    right. reflexivity.
  - refine (proj2 empty_special_set_keeps_base_letter 2%Z 2%Z (lit "en")
              0.35 1.0 (englishOnlyStore (fun _ => 0.5)) _).
    split; [repeat constructor | reflexivity].
Defined.

(* ================================================================== *)
(** * The sampler is roulette-wheel selection *)
(* ================================================================== *)

Lemma distinct_NoDup (l : list jstring) : distinct l = true -> NoDup l.
Proof.
  induction l as [|x rest IH]; simpl; [constructor|].
  intros H. apply andb_prop in H as [Hx Hrest].
  constructor; [|now apply IH].
  intros Hin. apply negb_true_iff in Hx.
  assert (existsb (str_eqb x) rest = true); [|congruence].
  apply existsb_exists. exists x. split; [assumption | apply str_eqb_refl].
Qed.

Section ObjectUpdates.

Context {V : Type}.

Lemma setProp_new (o : object V) (k : jstring) (v : V) :
  ~ In k (keys o) -> setProp o k v = o ++ [(k, v)].
Proof.
  induction o as [|[k' v'] o IH]; simpl; [reflexivity|].
  intros H. destruct (str_eqb k' k) eqn:E.
  - apply str_eqb_eq in E. subst. tauto.
  - f_equal. apply IH. tauto.
Qed.

Lemma getProp_app_notin (pre l : object V) (k : jstring) :
  ~ In k (keys pre) -> getProp (pre ++ l) k = getProp l k.
Proof.
  induction pre as [|[k' v'] pre IH]; simpl; [reflexivity|].
  intros H. destruct (str_eqb k' k) eqn:E.
  - apply str_eqb_eq in E. subst. tauto.
  - apply IH. tauto.
Qed.

Lemma setProp_app_notin (pre l : object V) (k : jstring) (v : V) :
  ~ In k (keys pre) -> setProp (pre ++ l) k v = pre ++ setProp l k v.
Proof.
  induction pre as [|[k' v'] pre IH]; simpl; [reflexivity|].
  intros H. destruct (str_eqb k' k) eqn:E.
  - apply str_eqb_eq in E. subst. tauto.
  - f_equal. apply IH. tauto.
Qed.

End ObjectUpdates.

Section SamplerFacts.

Variable A : arithmetic.






(** Over a set of distinct vowels the extraction loop appends the
    vowels that have a weight, in the order of the set, and adds their
    weights in that order. *)
Lemma extractVowelsIn_vowelSubset (table : object (number A)) :
  forall (langVowels : list jstring) (vowelFreq : object (number A))
         (t : number A),
    NoDup langVowels ->
    (forall k, In k langVowels -> ~ In k (keys vowelFreq)) ->
    extractVowelsIn A table langVowels vowelFreq t
    = (vowelFreq ++ vowelSubsetIn A table langVowels,
       fold_left (fun total e => n_add A total (snd e))
         (vowelSubsetIn A table langVowels) t).
Proof.
  induction langVowels as [|v rest IH]; intros vf t Hnd Hfresh; simpl.
  - now rewrite app_nil_r.
  - inversion Hnd as [|? ? Hv Hnd']; subst.
    unfold vowelSubsetIn. simpl.
    destruct (truthyIn A (getProp table v)); simpl.
    + rewrite setProp_new by (apply Hfresh; now left).
      rewrite IH; [|assumption|].
      * unfold vowelSubsetIn. now rewrite <- app_assoc.
      * intros k Hk. unfold keys. rewrite map_app, in_app_iff. simpl.
        intros [H | [<- | []]]; [|contradiction].
        apply (Hfresh k); [now right | exact H].
    + apply IH; [assumption|]. intros k Hk. apply Hfresh. now right.
Qed.

(** Over distinct keys the normalization loop divides every weight. *)
Lemma normalizeKeysIn_map (t : number A) :
  forall (rest pre : object (number A)),
    NoDup (keys (pre ++ rest)) ->
    normalizeKeysIn A t (keys rest) (pre ++ rest)
    = pre ++ map (fun e => (fst e, n_div A (snd e) t)) rest.
Proof.
  induction rest as [|[k w] rest IH]; intros pre Hnd; [reflexivity|].
  assert (Hk : ~ In k (keys pre)).
  { unfold keys in Hnd. rewrite map_app in Hnd. simpl in Hnd.
    apply NoDup_remove_2 in Hnd. intros H. apply Hnd.
    apply in_or_app. now left. }
  unfold normalizeKeysIn. simpl.
  rewrite getProp_app_notin, setProp_app_notin by assumption.
  simpl. rewrite str_eqb_refl. simpl.
  specialize (IH (pre ++ [(k, n_div A w t)])).
  unfold normalizeKeysIn in IH. rewrite <- !app_assoc in IH. simpl in IH.
  apply IH.
  unfold keys in *. rewrite map_app in *. simpl in *. exact Hnd.
Qed.

Lemma keys_vowelSubsetIn (table : object (number A))
    (vowelSet : list jstring) :
  keys (vowelSubsetIn A table vowelSet)
  = filter (fun v => truthyIn A (getProp table v)) vowelSet.
Proof.
  unfold vowelSubsetIn, keys. rewrite map_map. simpl. apply map_id.
Qed.

Lemma keys_renormalizeIn (entries : object (number A)) :
  keys (renormalizeIn A entries) = keys entries.
Proof. unfold renormalizeIn, keys. now rewrite map_map. Qed.

(** After lines 46-60 [vowelFreq] holds the vowels of the list that have
    a weight, each weight divided by the total the loop added up. *)
Lemma vowelWeightsIn_renormalized (table : object (number A))
    (langVowels : list jstring) :
  NoDup langVowels ->
  vowelWeightsIn A table langVowels
  = renormalizeIn A (vowelSubsetIn A table langVowels).
Proof.
  intros Hnd. unfold vowelWeightsIn.
  rewrite (extractVowelsIn_vowelSubset table langVowels [] (n_zero A) Hnd)
    by (intros k _ []).
  cbn [fst snd app].
  apply (normalizeKeysIn_map _ (vowelSubsetIn A table langVowels) []).
  simpl. rewrite keys_vowelSubsetIn. now apply NoDup_filter.
Qed.



End SamplerFacts.

(** ** Exact arithmetic *)





(** The loop summaries of the embedding on stores are the sampler in
    exact arithmetic. *)
Lemma pickGeneral_rational (freq : object Q) (langVowels : list jstring)
    (r : Q) :
  pickGeneral freq r = getRandomLetterIn rational freq langVowels false r.
Proof. reflexivity. Qed.

Lemma vowelWeights_rational (freq : object Q) (langVowels : list jstring) :
  vowelWeights freq langVowels = vowelWeightsIn rational freq langVowels.
Proof. reflexivity. Qed.

Lemma pickVowel_rational (freq : object Q) (langVowels : list jstring)
    (r : Q) :
  pickVowel freq langVowels r
  = getRandomLetterIn rational freq langVowels true r.
Proof. reflexivity. Qed.

(** On a store, [getRandomLetter] returns what the sampler returns in
    exact arithmetic for the next value of the random source. *)
Lemma getRandomLetter_rational (s : store) (language : jstring)
    (table : object Q) (langVowels : list jstring) (ensureVowel : bool) :
  wfStore s ->
  forLanguage (tableView s) language = Some table ->
  forLanguage (vowelTables s) language = Some langVowels ->
  fst (getRandomLetter language ensureVowel s)
  = Ok (getRandomLetterIn rational table langVowels ensureVowel
          (randomValues s (randomCalls s))).
Proof.
  intros Hwf Ht Hv.
  pose proof (forLanguage_tableView s language) as Hview.
  rewrite Ht in Hview.
  destruct (forLanguage (freqTables s) language) as [f|] eqn:Hf;
    [|discriminate].
  simpl in Hview. injection Hview as Hview.
  destruct ensureVowel.
  - rewrite (getRandomLetter_vowel s language f langVowels Hwf Hf Hv).
    now rewrite <- Hview.
  - rewrite getRandomLetter_general, Ht. reflexivity.
Qed.

(** ** The module's tables *)

(** The weights of the module's tables are positive. *)
Lemma static_weights_positive (lang : jstring) (table : object Q) :
  In (lang, table) letterFrequencies ->
  table <> [] /\ Forall (fun w => 0 < w) (map snd table).
Proof.
  assert (Hall : forallb (fun p => negb (length (snd p) =? 0)%nat &&
                                   forallb (fun e => Qlt_bool 0 (snd e))
                                     (snd p))
                   letterFrequencies = true) by reflexivity.
  rewrite forallb_forall in Hall. intros Hin.
  specialize (Hall _ Hin). simpl in Hall.
  apply andb_prop in Hall as [Hlen Hw]. split.
  - intros ->. discriminate.
  - rewrite forallb_forall in Hw. apply Forall_forall. intros w Hin'.
    apply in_map_iff in Hin' as (e & <- & He). specialize (Hw _ He).
    unfold Qlt_bool in Hw. apply negb_true_iff in Hw.
    apply Qnot_le_lt. intros Hle. apply Qle_bool_iff in Hle. congruence.
Qed.

Lemma letterFrequencies_keys_distinct (lang : jstring) (table : object Q) :
  In (lang, table) letterFrequencies -> NoDup (keys table).
Proof.
  assert (Hall : forallb (fun p => distinct (keys (snd p))) letterFrequencies
                 = true) by reflexivity.
  rewrite forallb_forall in Hall. intros Hin.
  apply distinct_NoDup. exact (Hall _ Hin).
Qed.

Lemma vowels_distinct (lang : jstring) (vowelSet : list jstring) :
  In (lang, vowelSet) vowels -> NoDup vowelSet.
Proof.
  assert (Hall : forallb (fun p => distinct (snd p)) vowels = true)
    by reflexivity.
  rewrite forallb_forall in Hall. intros Hin.
  apply distinct_NoDup. exact (Hall _ Hin).
Qed.

(** The doubles of [Doubles.letterFrequencies] are the literals of
    [letterFrequencies], each rounded to the nearest double. *)
Lemma doubles_of_the_literals :
  map (fun p => (fst p,
                 map (fun e => (fst e, Doubles.ofDecimal (snd e))) (snd p)))
      letterFrequencies
  = Doubles.letterFrequencies.
Proof. vm_compute. reflexivity. Qed.

(** ** The claim and its correction *)




(** Rounding decides the letter at the boundary of two entries.  For
    English the draw 0.1674975074775673 scales, in doubles, to 16.8,
    the cumulative weight of D, and selects D; the exact product is
    above 16.8 and selects E.  For the French vowels the cumulative
    weight of Y is, in doubles, 0.9455782312925173, above the draw
    0.9455782312925172, which selects Y; the exact cumulative weight is
    below the draw, which selects the next vowel. *)
Lemma rounding_decides_the_letter :
  getRandomLetterIn binary64 (Doubles.table (lit "en"))
    (Doubles.vowelList (lit "en")) false Doubles.drawEnglish
  = Str (lit "D") /\
  getRandomLetterIn rational
    (ownProps (getProp letterFrequencies (lit "en")))
    (Doubles.vowelList (lit "en")) false 0.1674975074775673
  = Str (lit "E") /\
  getRandomLetterIn binary64 (Doubles.table (lit "fr"))
    (Doubles.vowelList (lit "fr")) true Doubles.drawFrench
  = Str (lit "Y") /\
  getRandomLetterIn rational
    (ownProps (getProp letterFrequencies (lit "fr")))
    (Doubles.vowelList (lit "fr")) true 0.9455782312925172
  = Str E_acute.
Proof. repeat split; vm_compute; reflexivity. Qed.

(** On the three tables the largest draw stays below the total in
    doubles too: scaled by the total of the table, the largest number
    below 1 is below that total, and the walk reaches it at the last
    entry at the latest. *)
Lemma largest_draw_below_total :
  forallb
    (fun p =>
       let total := totalIn binary64 (snd p) in
       let random := n_mul binary64 Doubles.beforeOne total in
       PrimFloat.ltb random total &&
       n_leb binary64 random
         (cumulativeWeightIn binary64 (snd p) (length (snd p) - 1)))
    Doubles.letterFrequencies
  = true.
Proof. vm_compute. reflexivity. Qed.

(* ================================================================== *)
(** * The static tables are read-only *)
(* ================================================================== *)

Lemma filter_all {T} (p : T -> bool) (l : list T) :
  forallb p l = true -> filter p l = l.
Proof.
  induction l as [|x l IH]; simpl; [reflexivity|].
  intros H. apply andb_prop in H as [Hx Hl].
  rewrite Hx. f_equal. now apply IH.
Qed.

(** In the module's tables the vowel list that goes with a table, for a
    language of the module or by the English default, has no repetition
    and only letters with a nonzero weight in that table. *)
Lemma static_vowels_weighted (language : jstring) (table : object Q)
    (langVowels : list jstring) :
  forLanguage letterFrequencies language = Some table ->
  forLanguage vowels language = Some langVowels ->
  NoDup langVowels /\
  forallb (fun v => truthy (getProp table v)) langVowels = true.
Proof.
  assert (Hall : forallb
            (fun p =>
               match getProp vowels (fst p) with
               | Some vs =>
                   distinct vs &&
                   forallb (fun v => truthy (getProp (snd p) v)) vs
               | None => false
               end) letterFrequencies = true) by reflexivity.
  assert (Hback : forallb
            (fun p =>
               match getProp letterFrequencies (fst p) with
               | Some _ => true
               | None => false
               end) vowels = true) by reflexivity.
  rewrite forallb_forall in Hall, Hback.
  assert (Hpair : forall lang t vs,
            In (lang, t) letterFrequencies ->
            getProp vowels lang = Some vs ->
            NoDup vs /\ forallb (fun v => truthy (getProp t v)) vs = true).
  { intros lang t vs Hin Hvs. specialize (Hall _ Hin).
    cbn [fst snd] in Hall. rewrite Hvs in Hall.
    apply andb_prop in Hall as [Hd Hw]. split; [|exact Hw].
    now apply distinct_NoDup. }
  unfold forLanguage.
  destruct (getProp letterFrequencies language) as [t|] eqn:Et;
    cbn [orElse].
  - intros [= <-].
    pose proof (getProp_Some_In _ _ _ Et) as Hin.
    pose proof (Hall _ Hin) as Hv. cbn [fst snd] in Hv.
    destruct (getProp vowels language) as [vs|] eqn:Ev; [|discriminate].
    cbn [orElse]. intros [= <-]. now apply (Hpair language t vs).
  - destruct (getProp vowels language) as [vs|] eqn:Ev; cbn [orElse].
    + pose proof (Hback _ (getProp_Some_In _ _ _ Ev)) as Hb.
      cbn [fst] in Hb. rewrite Et in Hb. discriminate.
    + intros Ht Hv.
      apply (Hpair (lit "en") table langVowels);
        [now apply getProp_Some_In | exact Hv].
Qed.

(** The keys of the object that the vowel path fills are the vowels of
    the list, when each has a weight. *)
Lemma keys_vowelWeights_all (table : object Q) (langVowels : list jstring) :
  NoDup langVowels ->
  forallb (fun v => truthy (getProp table v)) langVowels = true ->
  keys (vowelWeights table langVowels) = langVowels.
Proof.
  intros Hnd Hall.
  rewrite vowelWeights_rational, vowelWeightsIn_renormalized by assumption.
  rewrite (keys_renormalizeIn rational), (keys_vowelSubsetIn rational).
  now apply filter_all.
Qed.

(** C9: no operation changes the static tables.  After any call of
    getRandomLetter, generateBoard, generateDailyPuzzle or
    getLetterPoints, returning or throwing, the two tables bind the
    objects they bound and every object that existed before the call is
    what it was.  On the tables of the module, a vowel-only call of
    getRandomLetter for a language code that is not a name of
    Object.prototype writes to one object, which the call creates at a
    new address and whose properties are the vowels of the language:
    the division of the weights takes place in this copy. *)
Theorem static_tables_unchanged :
  forall s : store,
    wfStore s ->
    (forall language ensureVowel,
       tablesUnchanged s (snd (getRandomLetter language ensureVowel s))) /\
    (forall rows cols options,
       tablesUnchanged s (snd (generateBoard rows cols options s))) /\
    (forall today,
       tablesUnchanged s (snd (generateDailyPuzzle today s))) /\
    (forall letter language,
       tablesUnchanged s (snd (getLetterPoints letter language s))) /\
    (forall language langVowels,
       staticTables s ->
       plainName language = true ->
       forLanguage vowels language = Some langVowels ->
       exists vowelFreq,
         heap (snd (getRandomLetter language true s))
         = heap s ++ [vowelFreq] /\
         keys vowelFreq = langVowels).
Proof.
  intros s Hwf. refine (conj _ (conj _ (conj _ (conj _ _)))).
  - intros language ensureVowel.
    apply (extends_tablesUnchanged _ _ Hwf), framed_getRandomLetter, Hwf.
  - intros rows cols options.
    apply (extends_tablesUnchanged _ _ Hwf), framed_generateBoard, Hwf.
  - intros today.
    apply (extends_tablesUnchanged _ _ Hwf), framed_generateDailyPuzzle, Hwf.
  - intros letter language.
    apply (extends_tablesUnchanged _ _ Hwf), framed_getLetterPoints, Hwf.
  - intros language langVowels Hst _ Hlv.
    destruct (staticTables_forLanguage s language Hst)
      as (f & table & Hf & Ht & E).
    destruct Hst as (_ & _ & Hvow).
    assert (Hv : forLanguage (vowelTables s) language = Some langVowels)
      by now rewrite Hvow.
    destruct (static_vowels_weighted language table langVowels E Hlv)
      as [Hnd Hall].
    rewrite (getRandomLetter_vowel s language f langVowels Hwf Hf Hv).
    cbn [snd heap tick withHeap].
    exists (vowelWeights (objAt (heap s) f) langVowels).
    split; [reflexivity|].
    rewrite Ht. now apply keys_vowelWeights_all.
Qed.

Lemma static_tables_unchanged_witness :
  tablesUnchanged (initialStore (fun _ => 0.5))
    (snd (getRandomLetter (lit "fr") true (initialStore (fun _ => 0.5)))) /\
  exists vowelFreq,
    heap (snd (getRandomLetter (lit "fr") true
                 (initialStore (fun _ => 0.5))))
    = heap (initialStore (fun _ => 0.5)) ++ [vowelFreq] /\
    keys vowelFreq
    = [lit "A"; lit "E"; lit "I"; lit "O"; lit "U"; lit "Y";
       E_acute; E_grave; E_circ].
Proof.
  pose proof (static_tables_unchanged (initialStore (fun _ => 0.5))
                (wfStore_initialStore _)) as H.
  exact (conj
           (proj1 H (lit "fr") true)
           (proj2 (proj2 (proj2 (proj2 H))) (lit "fr")
              [lit "A"; lit "E"; lit "I"; lit "O"; lit "U"; lit "Y";
               E_acute; E_grave; E_circ]
              (conj (wfStore_initialStore _) (conj eq_refl eq_refl))
              eq_refl eq_refl)).
Defined.

(* ================================================================== *)
(** * Unknown language codes fall back to English *)
(* ================================================================== *)

Lemma not_key_getProp {V} (o : object V) (k : jstring) :
  ~ In k (keys o) -> getProp o k = None.
Proof.
  intros H. destruct (getProp o k) as [v|] eqn:E; [|reflexivity].
  exfalso. apply H. apply getProp_Some_In in E.
  unfold keys. change k with (fst (k, v)). now apply in_map.
Qed.

Lemma orElse_same {A} (a : option A) : orElse a a = a.
Proof. now destruct a. Qed.

Lemma getRandomLetter_fallback (language : jstring) (ensureVowel : bool)
    (s : store) :
  getProp (freqTables s) language = None ->
  getProp (vowelTables s) language = None ->
  getRandomLetter language ensureVowel s
  = getRandomLetter (lit "en") ensureVowel s.
Proof.
  intros Hf Hv. unfold getRandomLetter.
  apply bind_ext_on. intros lf s0 [= <- <-].
  rewrite Hf, orElse_same. cbn [orElse].
  destruct ensureVowel; [|reflexivity].
  apply bind_ext_on. intros vs s0 [= <- <-].
  rewrite Hv, orElse_same. reflexivity.
Qed.

(** X1: for a language code that has neither a frequency table nor a
    vowel list (and is not a name inherited from Object.prototype),
    getRandomLetter does exactly what it does for ['en']: same letter,
    same store. *)
Theorem getRandomLetter_unknown_language_is_english :
  forall (language : jstring) (ensureVowel : bool) (s : store),
    plainName language = true ->
    getProp (freqTables s) language = None ->
    getProp (vowelTables s) language = None ->
    getRandomLetter language ensureVowel s
    = getRandomLetter (lit "en") ensureVowel s.
Proof.
  intros language ensureVowel s _ Hf Hv. now apply getRandomLetter_fallback.
Qed.

Lemma getRandomLetter_unknown_language_is_english_witness :
  getRandomLetter (lit "de") true (initialStore (fun _ => 0.5))
  = getRandomLetter (lit "en") true (initialStore (fun _ => 0.5)).
Proof.
  refine (getRandomLetter_unknown_language_is_english (lit "de") true
            (initialStore (fun _ => 0.5)) _ _ _); reflexivity.
Defined.

Lemma substituteSpecial_never (language : jstring) (p : Q) (letter : jsval)
    (s : store) :
  validRandom s -> p <= 0 ->
  substituteSpecial language p letter s = (Ok letter, tick s).
Proof.
  intros Hr Hp. unfold substituteSpecial, bind, Math_random.
  rewrite Qlt_bool_false; [reflexivity|].
  apply Qle_trans with 0; [assumption | apply Hr].
Qed.

Lemma moduleStore_unknown_language (s : store) (language : jstring) :
  moduleStore s -> ~ In language (keys letterFrequencies) ->
  getProp (freqTables s) language = None /\
  getProp (vowelTables s) language = None.
Proof.
  intros [(Hwf & Hview & Hvow) _] Hin. split.
  - apply not_key_getProp. now rewrite <- keys_tableView, Hview.
  - rewrite Hvow. now apply not_key_getProp.
Qed.

Lemma moduleStore_framed {A} (m : M A) (s : store) :
  framed m -> moduleStore s -> moduleStore (snd (m s)).
Proof.
  intros Hm Hs. eapply moduleStore_extends; [exact Hs|].
  apply Hm, Hs.
Qed.

Lemma generateCell_fallback (language : jstring) (vp sp : Q) (s : store) :
  moduleStore s -> ~ In language (keys letterFrequencies) -> sp <= 0 ->
  generateCell language vp sp s = generateCell (lit "en") vp sp s.
Proof.
  intros Hs Hin Hsp. unfold generateCell.
  assert (Hbase : baseLetter language vp s = baseLetter (lit "en") vp s).
  { unfold baseLetter. apply bind_ext_on. intros r s0 [= <- <-].
    destruct (moduleStore_unknown_language (tick s) language
                (moduleStore_tick s Hs) Hin) as [Hf Hv].
    now apply getRandomLetter_fallback. }
  unfold bind. rewrite Hbase.
  pose proof (moduleStore_framed (baseLetter (lit "en") vp) s
                (framed_baseLetter _ _) Hs) as Hs1.
  destruct (baseLetter (lit "en") vp s) as [[letter | e] s1]; [|reflexivity].
  simpl in Hs1. destruct Hs1 as [_ Hr].
  now rewrite !substituteSpecial_never.
Qed.

(** X2: with [specialLetterProbability] zero or negative, generateBoard
    for a language code without a table returns normally, and returns
    the very board it returns for ['en']: [rows] rows of [cols]
    non-empty strings. *)
Theorem generateBoard_unknown_language_without_substitution :
  forall (rows cols : Z) (lang : jstring) (vp sp : Q) (s : store),
    moduleStore s ->
    plainName lang = true ->
    ~ In lang (keys letterFrequencies) ->
    sp <= 0 ->
    generateBoard rows cols (mkOptions (Some lang) (Some vp) (Some sp)) s
    = generateBoard rows cols
        (mkOptions (Some (lit "en")) (Some vp) (Some sp)) s /\
    exists board s',
      generateBoard rows cols (mkOptions (Some lang) (Some vp) (Some sp)) s
      = (Ok board, s') /\
      length board = Z.to_nat rows /\
      Forall (fun row => length row = Z.to_nat cols /\
                         Forall nonEmptyString row) board.
Proof.
  intros rows cols lang vp sp s Hs _ Hin Hsp.
  rewrite !generateBoard_given_options. split.
  - apply (forPush_ext moduleStore); [| |exact Hs].
    + intros s0 Hs0. apply (forPush_ext moduleStore); [| |exact Hs0].
      * intros s1 Hs1. now apply generateCell_fallback.
      * intros s1 Hs1. apply moduleStore_framed; [|exact Hs1].
        apply framed_generateCell.
    + intros s0 Hs0. apply moduleStore_framed; [|exact Hs0].
      apply framed_forPush, framed_generateCell.
  - assert (Hcell : returns moduleStore (generateCell lang vp sp)
                      nonEmptyString).
    { unfold generateCell. eapply returns_bind; [apply returns_baseLetter|].
      intros letter Hl. now apply returns_substituteSpecial_never. }
    pose proof (returns_forPush moduleStore _ _ Hcell (Z.to_nat cols) []
                  (Forall_nil _)) as Hrow.
    destruct (returns_forPush moduleStore _ _ Hrow (Z.to_nat rows) []
                (Forall_nil _) s Hs) as (board & s' & E & [Hlen Hall] & _).
    exists board, s'. split; [exact E|]. split; [exact Hlen|].
    eapply Forall_impl; [|exact Hall]. intros row [Hl HP]. now split.
Qed.

Lemma generateBoard_unknown_language_without_substitution_witness :
  generateBoard 2 3 (mkOptions (Some (lit "de")) (Some 0.35) (Some 0))
    (initialStore (fun _ => 0.5))
  = generateBoard 2 3 (mkOptions (Some (lit "en")) (Some 0.35) (Some 0))
      (initialStore (fun _ => 0.5)).
Proof.
  refine (proj1 (generateBoard_unknown_language_without_substitution
                   2 3 (lit "de") 0.35 0 (initialStore (fun _ => 0.5))
                   _ _ _ _)).
  - apply moduleStore_initialStore. intros n.
    split; [discriminate | reflexivity].
  - reflexivity.
  - simpl. intros [H | [H | [H | []]]]; discriminate.
  - discriminate.
Defined.

(* ================================================================== *)
(** * Forced vowels in every language *)
(* ================================================================== *)

(** X3: for every language of the module, with [vowelProbability] at
    least 1 and [specialLetterProbability] at most 0, every cell of the
    board is a member of that language's vowel list. *)
Theorem generateBoard_forced_vowels_every_language :
  forall (rows cols : Z) (lang : jstring) (langVowels : list jstring)
         (vp sp : Q) (s : store),
    moduleStore s ->
    getProp vowels lang = Some langVowels ->
    1 <= vp -> sp <= 0 ->
    exists board s',
      generateBoard rows cols (mkOptions (Some lang) (Some vp) (Some sp)) s
      = (Ok board, s') /\
      Forall (Forall (letterAmong langVowels)) board.
Proof.
  intros rows cols lang langVowels vp sp s Hs Hv Hvp Hsp.
  rewrite generateBoard_given_options.
  assert (Hcell : returns moduleStore (generateCell lang vp sp)
                    (letterAmong langVowels)).
  { unfold generateCell. eapply returns_bind.
    - now apply returns_baseLetter_always_vowel.
    - intros letter (lv & Ev & Hl).
      apply returns_substituteSpecial_never; [assumption|].
      unfold forLanguage in Ev. rewrite Hv in Ev. injection Ev as <-.
      exact Hl. }
  pose proof (returns_forPush moduleStore _ _ Hcell (Z.to_nat cols) []
                (Forall_nil _)) as Hrow.
  destruct (returns_forPush moduleStore _ _ Hrow (Z.to_nat rows) []
              (Forall_nil _) s Hs) as (board & s' & E & [_ Hall] & _).
  exists board, s'. split; [exact E|].
  eapply Forall_impl; [|exact Hall]. now intros row [_ H].
Qed.

Lemma generateBoard_forced_vowels_every_language_witness :
  exists board s',
    generateBoard 3 3 (mkOptions (Some (lit "fr")) (Some 1) (Some 0))
      (initialStore (fun _ => 0.5)) = (Ok board, s') /\
    Forall (Forall (letterAmong
                      (withDefault [] (getProp vowels (lit "fr"))))) board.
Proof.
  refine (generateBoard_forced_vowels_every_language 3 3 (lit "fr")
            (withDefault [] (getProp vowels (lit "fr"))) 1 0
            (initialStore (fun _ => 0.5)) _ _ _ _).
  - apply moduleStore_initialStore. intros n.
    split; [discriminate | reflexivity].
  - reflexivity.
  - discriminate.
  - discriminate.
Defined.

(* ================================================================== *)
(** * Math.seedrandom *)
(* ================================================================== *)

Lemma seedFree_ret {A} (a : A) : seedFree (ret a).
Proof. intros s v. reflexivity. Qed.

Lemma seedFree_throw {A} (e : error) : seedFree (@throw A e).
Proof. intros s v. reflexivity. Qed.

Lemma seedFree_bind {A B} (m : M A) (f : A -> M B) :
  seedFree m -> (forall a, seedFree (f a)) -> seedFree (bind m f).
Proof.
  intros Hm Hf s v. unfold bind. rewrite Hm.
  destruct (m s) as [[a | e] s1]; simpl; [apply Hf | reflexivity].
Qed.

Lemma seedFree_Math_random : seedFree Math_random.
Proof. intros s v. reflexivity. Qed.

Lemma seedFree_read_letterFrequencies : seedFree read_letterFrequencies.
Proof. intros s v. reflexivity. Qed.

Lemma seedFree_read_vowels : seedFree read_vowels.
Proof. intros s v. reflexivity. Qed.

Lemma seedFree_newObject : seedFree newObject.
Proof. intros s v. reflexivity. Qed.

Lemma seedFree_getNumber (o : option loc) (k : jstring) :
  seedFree (getNumber o k).
Proof. intros s v. destruct o; reflexivity. Qed.

Lemma seedFree_setNumber (l : loc) (k : jstring) (w : Q) :
  seedFree (setNumber l k w).
Proof. intros s v. reflexivity. Qed.

Lemma seedFree_forInKeys (o : option loc) : seedFree (forInKeys o).
Proof. intros s v. destruct o; reflexivity. Qed.

Lemma seedFree_Object_keys (o : option loc) : seedFree (Object_keys o).
Proof. intros s v. destruct o; reflexivity. Qed.

Lemma seedFree_foldM {A St} (body : St -> A -> M St) :
  (forall acc x, seedFree (body acc x)) ->
  forall arr acc, seedFree (foldM body arr acc).
Proof.
  intros Hb. induction arr as [|x rest IH]; intros acc; simpl.
  - apply seedFree_ret.
  - apply seedFree_bind; [apply Hb | intros acc'; apply IH].
Qed.

Lemma seedFree_forPush {A} (body : M A) :
  seedFree body -> forall n acc, seedFree (forPush n body acc).
Proof.
  intros Hb. induction n as [|n IH]; intros acc; simpl.
  - apply seedFree_ret.
  - apply seedFree_bind; [assumption | intros x; apply IH].
Qed.

Lemma seedFree_filterM {A} (p : A -> M bool) :
  (forall x, seedFree (p x)) -> forall arr, seedFree (filterM p arr).
Proof.
  intros Hp. induction arr as [|x rest IH]; simpl.
  - apply seedFree_ret.
  - apply seedFree_bind; [apply Hp | intros keep].
    apply seedFree_bind; [apply IH | intros rest']. apply seedFree_ret.
Qed.

Lemma seedFree_walk (obj : option loc) (random : Q) :
  forall letters c, seedFree (walk obj random letters c).
Proof.
  induction letters as [|letter rest IH]; intros c; simpl.
  - apply seedFree_ret.
  - apply seedFree_bind; [apply seedFree_getNumber | intros w].
    destruct (Qle_bool random (c + num w)); [apply seedFree_ret | apply IH].
Qed.

Ltac seed_free :=
  repeat first
    [ apply seedFree_ret | apply seedFree_throw
    | apply seedFree_Math_random | apply seedFree_newObject
    | apply seedFree_read_letterFrequencies | apply seedFree_read_vowels
    | apply seedFree_getNumber | apply seedFree_setNumber
    | apply seedFree_forInKeys | apply seedFree_Object_keys
    | apply seedFree_walk
    | apply seedFree_foldM; intros
    | apply seedFree_filterM; intros
    | apply seedFree_forPush
    | apply seedFree_bind; [|intros]
    | match goal with
      | |- seedFree (if ?b then _ else _) => destruct b
      | |- seedFree (match ?x with _ => _ end) => destruct x
      end ].

Lemma seedFree_getRandomLetter (language : jstring) (ensureVowel : bool) :
  seedFree (getRandomLetter language ensureVowel).
Proof. unfold getRandomLetter, extractVowel, normalizeVowel. seed_free. Qed.

Lemma seedFree_generateCell (language : jstring) (vp sp : Q) :
  seedFree (generateCell language vp sp).
Proof.
  unfold generateCell, baseLetter.
  apply seedFree_bind.
  - apply seedFree_bind; [apply seedFree_Math_random | intros r].
    apply seedFree_getRandomLetter.
  - intros letter.
    unfold substituteSpecial, specialLettersOf, isSpecial. seed_free.
Qed.

Lemma seedFree_generateBoard (rows cols : Z) (options : Options) :
  seedFree (generateBoard rows cols options).
Proof.
  unfold generateBoard.
  apply seedFree_forPush, seedFree_forPush, seedFree_generateCell.
Qed.

Lemma withSeedrandom_same (s : store) : withSeedrandom s (seedrandom s) = s.
Proof. now destruct s. Qed.

(** X4: getRandomLetter and generateBoard never read and never assign
    [Math.seedrandom]: with any other value of the property, assigned
    or not, they return the same result, and after the call the
    property is what it was. *)
Theorem sampling_never_touches_seedrandom :
  forall (s : store) (v : option Z),
    (forall language ensureVowel,
       fst (getRandomLetter language ensureVowel (withSeedrandom s v))
       = fst (getRandomLetter language ensureVowel s) /\
       seedrandom (snd (getRandomLetter language ensureVowel s))
       = seedrandom s) /\
    (forall rows cols options,
       fst (generateBoard rows cols options (withSeedrandom s v))
       = fst (generateBoard rows cols options s) /\
       seedrandom (snd (generateBoard rows cols options s))
       = seedrandom s).
Proof.
  intros s v. split.
  - intros language ensureVowel. split.
    + now rewrite seedFree_getRandomLetter.
    + rewrite <- (withSeedrandom_same s) at 1.
      now rewrite seedFree_getRandomLetter.
  - intros rows cols options. split.
    + now rewrite seedFree_generateBoard.
    + rewrite <- (withSeedrandom_same s) at 1.
      now rewrite seedFree_generateBoard.
Qed.

(** X5: the seed of the daily puzzle identifies the calendar date: two
    dates with months 0 to 11 and days 1 to 31 that give the same seed
    have the same year, month and day; and after generateDailyPuzzle,
    returning or throwing, [Math.seedrandom] holds the seed of the
    date. *)
Theorem dateSeed_identifies_date :
  (forall d1 d2 : Date,
     validDate d1 -> validDate d2 -> dateSeed d1 = dateSeed d2 ->
     getFullYear d1 = getFullYear d2 /\
     getMonth d1 = getMonth d2 /\
     getDate d1 = getDate d2) /\
  (forall (today : Date) (s : store),
     seedrandom (snd (generateDailyPuzzle today s)) = Some (dateSeed today)).
Proof.
  split.
  - intros d1 d2 [Hm1 Hd1] [Hm2 Hd2]. unfold dateSeed. lia.
  - intros today s. unfold generateDailyPuzzle, bind, set_seedrandom.
    change (withSeed s (dateSeed today))
      with (withSeedrandom s (Some (dateSeed today))).
    rewrite seedFree_generateBoard.
    now destruct (fst (generateBoard 6 6 _ s)).
Qed.

Lemma dateSeed_identifies_date_witness :
  getFullYear (mkDate 2024 0 15) = getFullYear (mkDate 2024 0 15) /\
  getMonth (mkDate 2024 0 15) = getMonth (mkDate 2024 0 15) /\
  getDate (mkDate 2024 0 15) = getDate (mkDate 2024 0 15).
Proof.
  refine (proj1 dateSeed_identifies_date (mkDate 2024 0 15)
            (mkDate 2024 0 15) _ _ _).
  - split; simpl; lia.
  - split; simpl; lia.
  - reflexivity.
Defined.

(* ================================================================== *)
(** * Boards are generated row by row *)
(* ================================================================== *)

(** Pushing onto [acc] is pushing onto an empty array and prepending
    [acc]. *)
Lemma forPush_acc {A} (body : M A) :
  forall (n : nat) (acc : list A) (s : store),
    forPush n body acc s
    = match forPush n body [] s with
      | (Ok l, s') => (Ok (acc ++ l), s')
      | (Throw e, s') => (Throw e, s')
      end.
Proof.
  induction n as [|n IH]; intros acc s; simpl.
  - unfold ret. now rewrite app_nil_r.
  - unfold bind. destruct (body s) as [[x | e] s1]; [|reflexivity].
    rewrite (IH (acc ++ [x])), (IH [x]).
    destruct (forPush n body [] s1) as [[l | e] s2]; [|reflexivity].
    now rewrite <- app_assoc.
Qed.

Lemma bind_assoc {A B C} (m : M A) (f : A -> M B) (g : B -> M C)
    (s : store) :
  bind (bind m f) g s = bind m (fun x => bind (f x) g) s.
Proof. unfold bind. now destruct (m s) as [[a | e] s1]. Qed.

Lemma forPush_add {A} (body : M A) :
  forall (n m : nat) (acc : list A) (s : store),
    forPush (n + m) body acc s
    = bind (forPush n body acc) (fun l => forPush m body l) s.
Proof.
  induction n as [|n IH]; intros m acc s; simpl; [reflexivity|].
  rewrite bind_assoc. apply bind_ext_on. intros x s1 _. apply IH.
Qed.

(** X6: a board of [r1 + r2] rows is the board of [r1] rows followed by
    the board of [r2] rows generated from the store the first one left:
    rows are produced one after the other, each from the draws that
    follow the previous one. *)
Theorem generateBoard_rows_compose :
  forall (r1 r2 cols : Z) (options : Options) (s s1 s2 : store)
         (b1 b2 : Board),
    (0 <= r1)%Z -> (0 <= r2)%Z ->
    generateBoard r1 cols options s = (Ok b1, s1) ->
    generateBoard r2 cols options s1 = (Ok b2, s2) ->
    generateBoard (r1 + r2) cols options s = (Ok (b1 ++ b2), s2).
Proof.
  intros r1 r2 cols options s s1 s2 b1 b2 H1 H2. unfold generateBoard.
  intros E1 E2. rewrite Z2Nat.inj_add by assumption.
  rewrite forPush_add. unfold bind. rewrite E1.
  rewrite forPush_acc, E2. reflexivity.
Qed.

Lemma generateBoard_rows_compose_witness :
  let s0 := initialStore (fun _ => 0.5) in
  let s1 := snd (generateBoard 1 2 noOptions s0) in
  let s2 := snd (generateBoard 2 2 noOptions s1) in
  generateBoard (1 + 2) 2 noOptions s0
  = (Ok (uniformBoard 1 2 (lit "L") ++ uniformBoard 2 2 (lit "L")), s2).
Proof.
  intros s0 s1 s2.
  refine (generateBoard_rows_compose 1 2 2 noOptions s0 s1 s2
            (uniformBoard 1 2 (lit "L")) (uniformBoard 2 2 (lit "L"))
            _ _ _ _).
  - lia.
  - lia.
  - vm_compute. reflexivity.
  - vm_compute. reflexivity.
Defined.

(* ================================================================== *)
(** * Draws and objects a call uses *)
(* ================================================================== *)

Lemma spends_ret {A} (a : A) : spends 0 0 0 (ret a).
Proof. intros s v s' _ [= _ <-]. lia. Qed.

Lemma spends_weaken {A} (lo hi a lo' hi' a' : nat) (m : M A) :
  (lo' <= lo)%nat -> (hi <= hi')%nat -> (a <= a')%nat ->
  spends lo hi a m -> spends lo' hi' a' m.
Proof.
  intros Hlo Hhi Ha Hm s v s' Hwf E. specialize (Hm s v s' Hwf E). lia.
Qed.

Lemma spends_bind {A B} (l1 h1 a1 l2 h2 a2 : nat) (m : M A) (f : A -> M B) :
  framed m -> spends l1 h1 a1 m -> (forall x, spends l2 h2 a2 (f x)) ->
  spends (l1 + l2) (h1 + h2) (a1 + a2) (bind m f).
Proof.
  intros Hfr Hm Hf s v s' Hwf E. unfold bind in E.
  pose proof (Hfr s Hwf) as Hext.
  destruct (m s) as [[x | e] s1] eqn:Em; [|discriminate].
  simpl in Hext.
  specialize (Hm s x s1 Hwf Em).
  specialize (Hf x s1 v s' (extends_wfStore s s1 Hwf Hext) E). lia.
Qed.

Lemma spends_Math_random : spends 1 1 0 Math_random.
Proof. intros s v s' _ [= _ <-]. simpl. lia. Qed.

Lemma spends_read_letterFrequencies : spends 0 0 0 read_letterFrequencies.
Proof. intros s v s' _ [= _ <-]. lia. Qed.

Lemma spends_getRandomLetter (language : jstring) (ensureVowel : bool) :
  spends 1 1 1 (getRandomLetter language ensureVowel).
Proof.
  intros s v s' Hwf. destruct ensureVowel.
  - destruct (forLanguage (vowelTables s) language) as [lv|] eqn:Hv.
    + destruct (forLanguage (freqTables s) language) as [f|] eqn:Hf.
      * rewrite (getRandomLetter_vowel s language f lv Hwf Hf Hv).
        intros [= _ <-]. simpl. rewrite length_app. simpl. lia.
      * rewrite (getRandomLetter_no_table s language lv Hf Hv).
        destruct lv; [|discriminate].
        intros [= _ <-]. simpl. rewrite length_app. simpl. lia.
    + rewrite (getRandomLetter_no_vowels s language Hv). discriminate.
  - rewrite getRandomLetter_general. intros [= _ <-]. simpl. lia.
Qed.

Lemma spends_specialLettersOf (letterFrequencies : object loc)
    (language : jstring) (otherLang : jsval) :
  spends 0 0 0 (specialLettersOf letterFrequencies language otherLang).
Proof.
  intros s v s' _ E.
  pose proof (specialLettersOf_store letterFrequencies language otherLang s)
    as Hs.
  rewrite E in Hs. simpl in Hs. subst s'. lia.
Qed.

Lemma spends_substituteSpecial (language : jstring) (p : Q) (letter : jsval) :
  spends 1 3 0 (substituteSpecial language p letter).
Proof.
  unfold substituteSpecial.
  apply (spends_bind 1 1 0 0 2 0);
    [apply framed_Math_random | apply spends_Math_random | intros r].
  destruct (Qlt_bool r p);
    [|apply (spends_weaken 0 0 0); try lia; apply spends_ret].
  apply (spends_bind 0 0 0 0 2 0);
    [apply framed_read_letterFrequencies
    | apply spends_read_letterFrequencies | intros lf].
  destruct (0 <? length (otherLanguages lf language))%nat;
    [|apply (spends_weaken 0 0 0); try lia; apply spends_ret].
  apply (spends_weaken 1 2 0); try lia.
  apply (spends_bind 1 1 0 0 1 0);
    [apply framed_Math_random | apply spends_Math_random | intros r1].
  apply (spends_bind 0 0 0 0 1 0);
    [apply framed_specialLettersOf | apply spends_specialLettersOf
    | intros specials].
  destruct (0 <? length specials)%nat;
    [|apply (spends_weaken 0 0 0); try lia; apply spends_ret].
  apply (spends_weaken 1 1 0); try lia.
  apply (spends_bind 1 1 0 0 0 0);
    [apply framed_Math_random | apply spends_Math_random | intros r2].
  apply spends_ret.
Qed.

Lemma spends_baseLetter (language : jstring) (p : Q) :
  spends 2 2 1 (baseLetter language p).
Proof.
  unfold baseLetter.
  apply (spends_bind 1 1 0 1 1 1);
    [apply framed_Math_random | apply spends_Math_random | intros r].
  apply spends_getRandomLetter.
Qed.

Lemma spends_generateCell (language : jstring) (vp sp : Q) :
  spends 3 5 1 (generateCell language vp sp).
Proof.
  unfold generateCell.
  apply (spends_bind 2 2 1 1 3 0);
    [apply framed_baseLetter | apply spends_baseLetter | intros letter].
  apply spends_substituteSpecial.
Qed.

Lemma spends_forPush {A} (lo hi a : nat) (body : M A) :
  framed body -> spends lo hi a body ->
  forall n acc, spends (n * lo) (n * hi) (n * a) (forPush n body acc).
Proof.
  intros Hfr Hb. induction n as [|n IH]; intros acc; simpl.
  - apply spends_ret.
  - apply spends_bind; [assumption | assumption | intros x; apply IH].
Qed.

(** X7: a board that generateBoard returns has cost between three and
    five calls of [Math.random()] per cell, and at most one new object
    per cell; getRandomLetter itself makes exactly one call when it
    returns. *)
Theorem generateBoard_draws_per_cell :
  forall (s : store),
    wfStore s ->
    (forall language ensureVowel v s',
       getRandomLetter language ensureVowel s = (Ok v, s') ->
       randomCalls s' = S (randomCalls s)) /\
    (forall rows cols options board s',
       generateBoard rows cols options s = (Ok board, s') ->
       let cells := (Z.to_nat rows * Z.to_nat cols)%nat in
       (randomCalls s + 3 * cells <= randomCalls s'
        <= randomCalls s + 5 * cells)%nat /\
       (length (heap s) <= length (heap s')
        <= length (heap s) + cells)%nat).
Proof.
  intros s Hwf. split.
  - intros language ensureVowel v s' E.
    pose proof (spends_getRandomLetter language ensureVowel s v s' Hwf E).
    lia.
  - intros rows cols options board s' E cells. unfold generateBoard in E.
    pose proof (spends_forPush _ _ _ _
                  (framed_forPush _ (framed_generateCell _ _ _) _ _)
                  (spends_forPush 3 5 1 _ (framed_generateCell _ _ _)
                     (spends_generateCell _ _ _) (Z.to_nat cols) [])
                  (Z.to_nat rows) [] s board s' Hwf E) as H.
    unfold cells. nia.
Qed.

Lemma generateBoard_draws_per_cell_witness :
  let s0 := initialStore (fun _ => 0.5) in
  let s' := snd (generateBoard 2 2 noOptions s0) in
  (randomCalls s0 + 3 * (2 * 2) <= randomCalls s'
   <= randomCalls s0 + 5 * (2 * 2))%nat /\
  (length (heap s0) <= length (heap s') <= length (heap s0) + 2 * 2)%nat.
Proof.
  intros s0 s'.
  refine (proj2 (generateBoard_draws_per_cell s0 (wfStore_initialStore _))
            2%Z 2%Z noOptions (uniformBoard 2 2 (lit "L")) s' _).
  vm_compute. reflexivity.
Defined.

(* ================================================================== *)
(** * The substitution step for a language without a table *)
(* ================================================================== *)

(** Every table of the module starts with a key of one character. *)
Lemma static_first_key (lang : jstring) (table : object Q) :
  In (lang, table) letterFrequencies ->
  exists k rest, keys table = k :: rest /\ length k = 1%nat.
Proof.
  assert (Hall : forallb (fun p => match keys (snd p) with
                                   | k :: _ => (length k =? 1)%nat
                                   | [] => false
                                   end) letterFrequencies = true)
    by reflexivity.
  rewrite forallb_forall in Hall. intros Hin.
  specialize (Hall _ Hin). cbn [snd] in Hall.
  destruct (keys table) as [|k rest]; [discriminate|].
  exists k, rest. split; [reflexivity | now apply Nat.eqb_eq].
Qed.

Lemma substituteSpecial_unknown_language (language : jstring) (p : Q)
    (letter : jsval) (s : store) :
  moduleStore s ->
  ~ In language (keys letterFrequencies) ->
  randomValues s (randomCalls s) < p ->
  fst (substituteSpecial language p letter s) = Throw TypeError.
Proof.
  intros Hs Hin Hp. pose proof Hs as [Hst Hr].
  assert (Hkeys : keys (freqTables s) = keys letterFrequencies).
  { destruct Hst as (_ & Hview & _). now rewrite <- keys_tableView, Hview. }
  destruct (moduleStore_unknown_language s language Hs Hin) as [Hnone _].
  unfold substituteSpecial, bind at 1, Math_random.
  rewrite (Qlt_bool_true _ _ Hp).
  unfold bind at 1, read_letterFrequencies. cbn [freqTables tick].
  set (languages := otherLanguages (freqTables s) language).
  assert (Hen : In (lit "en") languages).
  { unfold languages, otherLanguages. apply filter_In. split.
    - rewrite Hkeys. now left.
    - destruct (str_eqb (lit "en") language) eqn:E; [|reflexivity].
      apply str_eqb_eq in E. subst language. exfalso. apply Hin. now left. }
  destruct (0 <? length languages)%nat eqn:Elen.
  2:{ destruct languages; [contradiction | discriminate]. }
  unfold bind at 1. cbn [randomValues randomCalls tick].
  destruct (at_index_floorIndex languages (randomValues s (S (randomCalls s))))
    as (other & Eo & Hother).
  { apply Hr. } { apply Hr. }
  { intros E. rewrite E in Hen. contradiction. }
  rewrite Eo. cbn [elem].
  destruct (staticTables_getProp s other Hst (otherLanguages_In _ _ _ Hother))
    as (fo & Hfo & Hto).
  destruct (static_first_key other _ Hto) as (k & rest & Hk & Hlen).
  unfold bind at 1, specialLettersOf. cbn [propertyKey].
  unfold bind at 1, Object_keys. rewrite Hfo. cbn [heap tick].
  rewrite Hk. cbn [filterM]. unfold bind at 1, isSpecial.
  rewrite Hlen, Hnone. reflexivity.
Qed.

Lemma baseLetter_two_draws (language : jstring) (vp : Q) (s : store) :
  moduleStore s ->
  exists letter s1,
    baseLetter language vp s = (Ok letter, s1) /\
    moduleStore s1 /\
    randomValues s1 = randomValues s /\
    randomCalls s1 = (randomCalls s + 2)%nat.
Proof.
  intros Hs.
  destruct (returns_baseLetter language vp s Hs) as (letter & s1 & E & _ & Hs1).
  exists letter, s1. split; [exact E|]. split; [exact Hs1|].
  destruct Hs as [(Hwf & _) _].
  pose proof (framed_baseLetter language vp s Hwf) as Hext.
  rewrite E in Hext. destruct Hext as (_ & _ & _ & R & _).
  pose proof (spends_baseLetter language vp s letter s1 Hwf E).
  split; [exact R | lia].
Qed.

(** X8: for a language code without a table, generateBoard with at
    least one cell throws a TypeError whenever the draw that decides
    the substitution of the first cell, the third draw of the call, is
    below [specialLetterProbability]. *)
Theorem generateBoard_unknown_language_substitution_throws :
  forall (rows cols : Z) (lang : jstring) (vp sp : Q) (s : store),
    moduleStore s ->
    (0 < rows)%Z -> (0 < cols)%Z ->
    plainName lang = true ->
    ~ In lang (keys letterFrequencies) ->
    randomValues s (randomCalls s + 2) < sp ->
    fst (generateBoard rows cols (mkOptions (Some lang) (Some vp) (Some sp)) s)
    = Throw TypeError.
Proof.
  intros rows cols lang vp sp s Hs Hrows Hcols _ Hin Hp.
  rewrite generateBoard_given_options.
  destruct (Z.to_nat rows) as [|n] eqn:En; [lia|].
  destruct (Z.to_nat cols) as [|m] eqn:Em; [lia|].
  destruct (baseLetter_two_draws lang vp s Hs)
    as (letter & s1 & E & Hs1 & R & C).
  assert (Hsub : fst (substituteSpecial lang sp letter s1) = Throw TypeError).
  { apply substituteSpecial_unknown_language; try assumption.
    now rewrite R, C. }
  cbn [forPush]. unfold bind at 1. unfold bind at 1.
  unfold generateCell, bind at 1. rewrite E.
  destruct (substituteSpecial lang sp letter s1) as [o s2].
  simpl in Hsub. subst o. reflexivity.
Qed.

Lemma generateBoard_unknown_language_substitution_throws_witness :
  fst (generateBoard 6 6 (mkOptions (Some (lit "de")) (Some 0.35) (Some 0.15))
         (initialStore (fun _ => 0.1)))
  = Throw TypeError.
Proof.
  refine (generateBoard_unknown_language_substitution_throws 6 6 (lit "de")
            0.35 0.15 (initialStore (fun _ => 0.1)) _ _ _ _ _ _).
  - apply moduleStore_initialStore. intros n.
    split; [discriminate | reflexivity].
  - lia.
  - lia.
  - reflexivity.
  - simpl. intros [H | [H | [H | []]]]; discriminate.
  - reflexivity.
Defined.

(* ================================================================== *)
(** * The alphabet of a board *)
(* ================================================================== *)

Lemma static_keys_single (lang : jstring) (table : object Q) (k : jstring) :
  In (lang, table) letterFrequencies -> In k (keys table) ->
  length k = 1%nat.
Proof.
  assert (Hall : forallb (fun p => forallb (fun k => (length k =? 1)%nat)
                                     (keys (snd p)))
                   letterFrequencies = true) by reflexivity.
  rewrite forallb_forall in Hall. intros Hin Hk.
  specialize (Hall _ Hin). cbn [snd] in Hall.
  rewrite forallb_forall in Hall. now apply Nat.eqb_eq, Hall.
Qed.

(** The vowels of a language of the module, and E, are keys of its
    table. *)
Lemma static_vowels_in_table (lang : jstring) (own : object Q)
    (langVowels : list jstring) (v : jstring) :
  getProp letterFrequencies lang = Some own ->
  forLanguage vowels lang = Some langVowels ->
  In v (lit "E" :: langVowels) -> In v (keys own).
Proof.
  intros Hown Hv Hin.
  assert (Hall : forallb
            (fun p =>
               match getProp vowels (fst p) with
               | Some lv =>
                   forallb (fun v => existsb (str_eqb v) (keys (snd p)))
                           (lit "E" :: lv)
               | None => false
               end) letterFrequencies = true) by reflexivity.
  rewrite forallb_forall in Hall.
  specialize (Hall _ (getProp_Some_In _ _ _ Hown)). cbn [fst snd] in Hall.
  unfold forLanguage in Hv.
  destruct (getProp vowels lang) as [lv|]; [|discriminate].
  simpl in Hv. injection Hv as <-.
  rewrite forallb_forall in Hall. specialize (Hall _ Hin).
  apply existsb_exists in Hall as (k & Hk & E).
  apply str_eqb_eq in E. now subst.
Qed.

Lemma truthy_positive (w : Q) : 0 < w -> truthy (Some w) = true.
Proof.
  intros H. unfold truthy. destruct (Qeq_bool w 0) eqn:E; [|reflexivity].
  apply Qeq_bool_eq in E. rewrite E in H. discriminate.
Qed.

(** A character the filter of line 132 keeps is not a key of the main
    table, on the tables of the module. *)
Lemma specialLetters_borrowed (lang other : jstring) (own table : object Q)
    (x : jstring) :
  In (lang, own) letterFrequencies ->
  In (other, table) letterFrequencies ->
  In x (specialLetters own table) ->
  In x (keys table) /\ length x = 1%nat /\ ~ In x (keys own).
Proof.
  intros Hown Htable Hx. unfold specialLetters in Hx.
  apply filter_In in Hx as [Hin Hcond].
  pose proof (static_keys_single other table x Htable Hin) as Hlen.
  split; [exact Hin|]. split; [exact Hlen|].
  rewrite Hlen in Hcond. cbn [Nat.ltb Nat.leb orb] in Hcond.
  intros Hk. apply key_getProp in Hk as [w Hw].
  rewrite Hw in Hcond.
  destruct (static_weights_positive lang own Hown) as [_ Hpos].
  rewrite Forall_forall in Hpos.
  rewrite truthy_positive in Hcond; [discriminate|].
  apply Hpos. apply getProp_Some_In in Hw.
  change w with (snd (x, w)). now apply in_map.
Qed.

(** What the substitution step returns on the tables of the module: the
    base letter, or a letter borrowed from another language. *)
Lemma returns_substituteSpecial_borrowed (lang : jstring) (own : object Q)
    (p : Q) (letter : jsval) :
  getProp letterFrequencies lang = Some own ->
  returns moduleStore (substituteSpecial lang p letter)
    (fun v => v = letter \/
              exists x, v = Str x /\ length x = 1%nat /\
                        borrowedLetter lang own x).
Proof.
  intros Hown s Hs. pose proof Hs as [Hst Hr].
  assert (Hkeys : keys (freqTables s) = keys letterFrequencies).
  { destruct Hst as (_ & Hview & _). now rewrite <- keys_tableView, Hview. }
  pose proof (getProp_Some_In _ _ _ Hown) as Hinown.
  unfold substituteSpecial.
  unfold bind at 1, Math_random.
  destruct (Qlt_bool _ p).
  2:{ exists letter, (tick s). split; [reflexivity|].
      split; [now left | now apply moduleStore_tick]. }
  unfold bind at 1, read_letterFrequencies. cbn [freqTables tick].
  set (languages := otherLanguages (freqTables s) lang).
  destruct (0 <? length languages)%nat eqn:Elen.
  2:{ exists letter, (tick s). split; [reflexivity|].
      split; [now left | now apply moduleStore_tick]. }
  unfold bind at 1. cbn [randomValues randomCalls tick].
  destruct (at_index_floorIndex languages (randomValues s (S (randomCalls s))))
    as (other & Eo & Hin).
  { apply Hr. } { apply Hr. }
  { intros E. rewrite E in Elen. discriminate. }
  rewrite Eo. cbn [elem].
  assert (Hlang : In lang (keys (freqTables s))).
  { rewrite Hkeys. unfold keys. change lang with (fst (lang, own)).
    now apply in_map. }
  destruct (staticTables_getProp s lang Hst Hlang) as (fl & Hfl & Htl).
  destruct (staticTables_getProp s other Hst (otherLanguages_In _ _ _ Hin))
    as (fo & Hfo & Hto).
  erewrite bind_Ok by (apply specialLettersOf_run; eassumption).
  cbn [heap tick].
  set (specials := specialLetters (objAt (heap s) fl) (objAt (heap s) fo)).
  destruct (0 <? length specials)%nat eqn:Esp.
  2:{ exists letter, (tick (tick s)). split; [reflexivity|].
      split; [now left | now apply moduleStore_tick, moduleStore_tick]. }
  unfold bind, Math_random, ret. cbn [randomValues randomCalls tick].
  destruct (at_index_floorIndex specials
              (randomValues s (S (S (randomCalls s)))))
    as (x & Ex & Hx).
  { apply Hr. } { apply Hr. }
  { intros E. rewrite E in Esp. discriminate. }
  rewrite Ex. cbn [elem].
  eexists _, _. split; [reflexivity|]. split.
  - right. exists x. split; [reflexivity|].
    assert (Hsame : objAt (heap s) fl = own).
    { pose proof (getProp_tableView s lang) as Hv.
      destruct Hst as (_ & Hview & _). rewrite Hview, Hown, Hfl in Hv.
      simpl in Hv. now injection Hv. }
    unfold specials in Hx. rewrite Hsame in Hx.
    destruct (specialLetters_borrowed lang other own _ x Hinown Hto Hx)
      as (Hxin & Hlen & Hnot).
    split; [exact Hlen|]. split; [exact Hnot|].
    exists other, (objAt (heap s) fo). repeat split; try assumption.
    unfold languages, otherLanguages in Hin. apply filter_In in Hin as [_ Hne].
    intros ->. rewrite str_eqb_refl in Hne. discriminate.
  - now apply moduleStore_tick, moduleStore_tick, moduleStore_tick.
Qed.

Lemma returns_baseLetter_own (lang : jstring) (own : object Q) (vp : Q) :
  getProp letterFrequencies lang = Some own ->
  returns moduleStore (baseLetter lang vp) (boardLetter lang own).
Proof.
  intros Hown. unfold baseLetter.
  eapply returns_bind; [apply returns_Math_random|]. intros r _.
  eapply returns_weaken; [apply returns_getRandomLetter|].
  intros v (table & lv & Et & Ev & Hv).
  assert (table = own) as ->.
  { unfold forLanguage in Et. rewrite Hown in Et. simpl in Et.
    now injection Et. }
  assert (Hl : exists l, v = Str l /\ In l (keys own)).
  { destruct (Qlt_bool r vp); destruct Hv as (l & -> & Hin);
      exists l; (split; [reflexivity|]).
    - eapply static_vowels_in_table; eauto. now right.
    - destruct Hin as [<- | Hin]; [|exact Hin].
      eapply static_vowels_in_table; eauto. now left. }
  destruct Hl as (l & -> & Hin). exists l. split; [reflexivity|].
  split; [|now left].
  eapply static_keys_single; [|exact Hin].
  eapply getProp_Some_In, Hown.
Qed.

Lemma returns_generateCell_alphabet (lang : jstring) (own : object Q)
    (vp sp : Q) :
  getProp letterFrequencies lang = Some own ->
  returns moduleStore (generateCell lang vp sp) (boardLetter lang own).
Proof.
  intros Hown. unfold generateCell.
  eapply returns_bind; [exact (returns_baseLetter_own lang own vp Hown)|].
  intros letter Hletter.
  eapply returns_weaken;
    [exact (returns_substituteSpecial_borrowed lang own sp letter Hown)|].
  intros v [-> | (x & -> & Hlen & Hb)]; [exact Hletter|].
  exists x. split; [reflexivity|]. split; [exact Hlen | now right].
Qed.

(** X9: for a language of the module every cell of a board is a single
    character: a key of the language's own frequency table, or a key of
    another language's table that the own table does not have. *)
Theorem generateBoard_alphabet :
  forall (rows cols : Z) (lang : jstring) (own : object Q) (vp sp : Q)
         (s : store),
    moduleStore s ->
    getProp letterFrequencies lang = Some own ->
    exists board s',
      generateBoard rows cols (mkOptions (Some lang) (Some vp) (Some sp)) s
      = (Ok board, s') /\
      Forall (Forall (boardLetter lang own)) board.
Proof.
  intros rows cols lang own vp sp s Hs Hown.
  rewrite generateBoard_given_options.
  pose proof (returns_forPush moduleStore _ _
                (returns_generateCell_alphabet lang own vp sp Hown)
                (Z.to_nat cols) [] (Forall_nil _)) as Hrow.
  destruct (returns_forPush moduleStore _ _ Hrow (Z.to_nat rows) []
              (Forall_nil _) s Hs) as (board & s' & E & [_ Hall] & _).
  exists board, s'. split; [exact E|].
  eapply Forall_impl; [|exact Hall]. now intros row [_ H].
Qed.

Lemma generateBoard_alphabet_witness :
  exists board s',
    generateBoard 4 4 (mkOptions (Some (lit "es")) (Some 0.35) (Some 0.15))
      (initialStore (fun _ => 0.5)) = (Ok board, s') /\
    Forall (Forall (boardLetter (lit "es")
                      (ownProps (getProp letterFrequencies (lit "es")))))
           board.
Proof.
  refine (generateBoard_alphabet 4 4 (lit "es")
            (ownProps (getProp letterFrequencies (lit "es"))) 0.35 0.15
            (initialStore (fun _ => 0.5)) _ _).
  - apply moduleStore_initialStore. intros n.
    split; [discriminate | reflexivity].
  - reflexivity.
Defined.

(* ================================================================== *)
(** * The board of the daily puzzle *)
(* ================================================================== *)

Lemma moduleStore_withSeed (s : store) (seed : Z) :
  moduleStore s -> moduleStore (withSeed s seed).
Proof. intros [(Hwf & Hview & Hvow) Hr]. repeat split; assumption || apply Hr. Qed.

(** X10: on the tables of the module generateDailyPuzzle never throws:
    it returns six rows of six cells, each a single character of the
    English table or a letter borrowed from Spanish or French. *)
Theorem generateDailyPuzzle_board :
  forall (today : Date) (s : store),
    moduleStore s ->
    exists board s',
      generateDailyPuzzle today s = (Ok board, s') /\
      length board = 6%nat /\
      Forall (fun row =>
                length row = 6%nat /\
                Forall (boardLetter (lit "en")
                          (ownProps (getProp letterFrequencies (lit "en"))))
                       row) board.
Proof.
  intros today s Hs. unfold generateDailyPuzzle, bind, set_seedrandom.
  rewrite generateBoard_given_options.
  pose proof (returns_forPush moduleStore _ _
                (returns_generateCell_alphabet (lit "en")
                   (ownProps (getProp letterFrequencies (lit "en")))
                   0.4 0.2 eq_refl)
                (Z.to_nat 6) [] (Forall_nil _)) as Hrow.
  destruct (returns_forPush moduleStore _ _ Hrow (Z.to_nat 6) []
              (Forall_nil _) (withSeed s (dateSeed today))
              (moduleStore_withSeed s _ Hs))
    as (board & s' & E & [Hlen Hall] & _).
  exists board, s'. split; [exact E|]. split; [exact Hlen|].
  eapply Forall_impl; [|exact Hall]. intros row [Hl HP]. now split.
Qed.

Lemma generateDailyPuzzle_board_witness :
  exists board s',
    generateDailyPuzzle (mkDate 2024 0 15) (initialStore drawsOfADay)
    = (Ok board, s') /\
    length board = 6%nat /\
    Forall (fun row =>
              length row = 6%nat /\
              Forall (boardLetter (lit "en")
                        (ownProps (getProp letterFrequencies (lit "en"))))
                     row) board.
Proof.
  refine (generateDailyPuzzle_board (mkDate 2024 0 15)
            (initialStore drawsOfADay) _).
  apply moduleStore_initialStore. intros n. unfold drawsOfADay.
  destruct (n <? 108)%nat; split; discriminate || reflexivity.
Defined.

(* ================================================================== *)
(** * The score of a borrowed letter *)
(* ================================================================== *)

Lemma getLetterPoints_pointsSpec (letter : jstring)
    (language : option jstring) (s : store) :
  getLetterPoints letter language s = (Ok (pointsSpec letter), s).
Proof.
  unfold getLetterPoints, pointsSpec.
  destruct (getProp commonScoring letter) as [points|] eqn:E.
  - pose proof (commonScoring_truthy letter points E) as Hpos.
    assert (E0 : (points =? 0)%Z = false) by (apply Z.eqb_neq; lia).
    unfold orTwo, truthyZ. rewrite E0.
    now destruct (1 <? length letter)%nat.
  - unfold truthyZ. rewrite orb_true_r.
    now destruct (1 <? length letter)%nat.
Qed.

(** X11: a letter that generateBoard borrows from another language, a
    key of one table of the module that another table does not have,
    scores 8 in getLetterPoints, whatever the language passed. *)
Theorem borrowed_letter_scores_eight :
  forall (lang : jstring) (own : object Q) (l : jstring)
         (language : option jstring) (s : store),
    In (lang, own) letterFrequencies ->
    borrowedLetter lang own l ->
    getLetterPoints l language s = (Ok 8%Z, s).
Proof.
  intros lang own l language s Hown (Hnot & other & table & _ & Ht & Hl).
  rewrite getLetterPoints_pointsSpec. f_equal. f_equal.
  assert (Hall : forallb (fun p =>
            forallb (fun q =>
              forallb (fun x => existsb (str_eqb x) (keys (snd p))
                                || (pointsSpec x =? 8)%Z)
                      (keys (snd q)))
              letterFrequencies) letterFrequencies = true) by reflexivity.
  rewrite forallb_forall in Hall. specialize (Hall _ Hown).
  rewrite forallb_forall in Hall. specialize (Hall _ Ht).
  rewrite forallb_forall in Hall. specialize (Hall _ Hl).
  cbn [snd] in Hall. apply orb_prop in Hall as [H | H].
  - exfalso. apply Hnot. apply existsb_exists in H as (k & Hk & E).
    apply str_eqb_eq in E. now subst.
  - now apply Z.eqb_eq.
Qed.

Lemma borrowed_letter_scores_eight_witness :
  getLetterPoints N_tilde (Some (lit "en")) (initialStore (fun _ => 0.5))
  = (Ok 8%Z, initialStore (fun _ => 0.5)).
Proof.
  refine (borrowed_letter_scores_eight (lit "en")
            (ownProps (getProp letterFrequencies (lit "en"))) N_tilde
            (Some (lit "en")) (initialStore (fun _ => 0.5)) _ _).
  - now left.
  - split.
    + simpl. intuition discriminate.
    + exists (lit "es"), (ownProps (getProp letterFrequencies (lit "es"))).
      split; [discriminate|]. split; [right; now left|].
      simpl. do 26 right. now left.
Defined.

(* ================================================================== *)
(** * English boards with certain substitution *)
(* ================================================================== *)

(** Relative to English, each other table of the module has special
    characters, all of them accented letters. *)
Lemma english_specials (other : jstring) (table : object Q) :
  In (other, table) letterFrequencies -> other <> lit "en" ->
  specialLetters (ownProps (getProp letterFrequencies (lit "en"))) table
  <> [] /\
  forall x,
    In x (specialLetters (ownProps (getProp letterFrequencies (lit "en")))
            table) ->
    In x accentedLetters.
Proof.
  set (en := ownProps (getProp letterFrequencies (lit "en"))).
  assert (Hall : forallb
            (fun q =>
               str_eqb (fst q) (lit "en")
               || (negb (length (specialLetters en (snd q)) =? 0)%nat
                   && forallb (fun x => existsb (str_eqb x) accentedLetters)
                        (specialLetters en (snd q))))
            letterFrequencies = true) by reflexivity.
  rewrite forallb_forall in Hall. intros Hin Hne.
  specialize (Hall _ Hin). cbn [fst snd] in Hall.
  apply orb_prop in Hall as [H | H].
  - apply str_eqb_eq in H. contradiction.
  - apply andb_prop in H as [Hlen Hsub]. split.
    + intros E. rewrite E in Hlen. discriminate.
    + intros x Hx. rewrite forallb_forall in Hsub. specialize (Hsub _ Hx).
      apply existsb_exists in Hsub as (k & Hk & E).
      apply str_eqb_eq in E. now subst.
Qed.

Lemma returns_substituteSpecial_english (p : Q) (letter : jsval) :
  1 <= p ->
  returns moduleStore (substituteSpecial (lit "en") p letter)
    (letterAmong accentedLetters).
Proof.
  intros Hp s Hs. pose proof Hs as [Hst Hr].
  assert (Hkeys : keys (freqTables s) = keys letterFrequencies).
  { destruct Hst as (_ & Hview & _). now rewrite <- keys_tableView, Hview. }
  unfold substituteSpecial.
  unfold bind at 1, Math_random.
  rewrite Qlt_bool_true by (apply Qlt_le_trans with 1; [apply Hr | exact Hp]).
  unfold bind at 1, read_letterFrequencies. cbn [freqTables tick].
  set (languages := otherLanguages (freqTables s) (lit "en")).
  assert (Hes : In (lit "es") languages).
  { unfold languages, otherLanguages. apply filter_In. split.
    - rewrite Hkeys. right. now left.
    - reflexivity. }
  destruct (0 <? length languages)%nat eqn:Elen.
  2:{ destruct languages; [contradiction | discriminate]. }
  unfold bind at 1. cbn [randomValues randomCalls tick].
  destruct (at_index_floorIndex languages (randomValues s (S (randomCalls s))))
    as (other & Eo & Hin).
  { apply Hr. } { apply Hr. }
  { intros E. rewrite E in Hes. contradiction. }
  rewrite Eo. cbn [elem].
  assert (Hlang : In (lit "en") (keys (freqTables s)))
    by (rewrite Hkeys; now left).
  destruct (staticTables_getProp s (lit "en") Hst Hlang) as (fl & Hfl & Htl).
  destruct (staticTables_getProp s other Hst (otherLanguages_In _ _ _ Hin))
    as (fo & Hfo & Hto).
  erewrite bind_Ok by (apply specialLettersOf_run; eassumption).
  cbn [heap tick].
  assert (Hsame : objAt (heap s) fl
                  = ownProps (getProp letterFrequencies (lit "en"))).
  { pose proof (getProp_tableView s (lit "en")) as Hv.
    destruct Hst as (_ & Hview & _). rewrite Hview, Hfl in Hv.
    simpl in Hv. now injection Hv as <-. }
  rewrite Hsame.
  assert (Hne : other <> lit "en").
  { unfold languages, otherLanguages in Hin. apply filter_In in Hin as [_ H].
    intros ->. discriminate. }
  destruct (english_specials other _ Hto Hne) as [Hnil Hsub].
  set (specials := specialLetters _ (objAt (heap s) fo)) in *.
  destruct (0 <? length specials)%nat eqn:Esp.
  2:{ destruct specials; [congruence | discriminate]. }
  unfold bind, Math_random, ret. cbn [randomValues randomCalls tick].
  destruct (at_index_floorIndex specials
              (randomValues s (S (S (randomCalls s)))))
    as (x & Ex & Hx).
  { apply Hr. } { apply Hr. } { exact Hnil. }
  rewrite Ex. cbn [elem].
  eexists _, _. split; [reflexivity|]. split.
  - exists x. split; [reflexivity | now apply Hsub].
  - now apply moduleStore_tick, moduleStore_tick, moduleStore_tick.
Qed.

(** X13: for English with [specialLetterProbability] at least 1 every
    cell is substituted: every cell of the board is one of the accented
    letters of the Spanish and French tables, whatever
    [vowelProbability] is. *)
Theorem generateBoard_english_all_special :
  forall (rows cols : Z) (vp sp : Q) (s : store),
    moduleStore s ->
    1 <= sp ->
    exists board s',
      generateBoard rows cols
        (mkOptions (Some (lit "en")) (Some vp) (Some sp)) s
      = (Ok board, s') /\
      Forall (Forall (letterAmong accentedLetters)) board.
Proof.
  intros rows cols vp sp s Hs Hsp.
  rewrite generateBoard_given_options.
  assert (Hcell : returns moduleStore (generateCell (lit "en") vp sp)
                    (letterAmong accentedLetters)).
  { unfold generateCell. eapply returns_bind; [apply returns_baseLetter|].
    intros letter _. now apply returns_substituteSpecial_english. }
  pose proof (returns_forPush moduleStore _ _ Hcell (Z.to_nat cols) []
                (Forall_nil _)) as Hrow.
  destruct (returns_forPush moduleStore _ _ Hrow (Z.to_nat rows) []
              (Forall_nil _) s Hs) as (board & s' & E & [_ Hall] & _).
  exists board, s'. split; [exact E|].
  eapply Forall_impl; [|exact Hall]. now intros row [_ H].
Qed.

Lemma generateBoard_english_all_special_witness :
  exists board s',
    generateBoard 2 2 (mkOptions (Some (lit "en")) (Some 0.35) (Some 1))
      (initialStore (fun _ => 0.5)) = (Ok board, s') /\
    Forall (Forall (letterAmong accentedLetters)) board.
Proof.
  refine (generateBoard_english_all_special 2 2 0.35 1
            (initialStore (fun _ => 0.5)) _ _).
  - apply moduleStore_initialStore. intros n.
    split; [discriminate | reflexivity].
  - discriminate.
Defined.
